(** * PicoLibc system calls of RIOT (sys/picolibc_syscalls_default/syscalls.c)

    A shallow embedding of the system-call shim: the line-buffered stdio
    stream ([picolibc_put], [picolibc_flush], [picolibc_get]) that sits in
    front of the single stdio channel, the bulk [write], the entry points that
    always fail ([close], [kill], [times]) and [_exit].

    C objects of file scope become fields of one record, [World]; a C function
    becomes a function in the monad [M], which threads the world and records
    every call made to a collaborator (mutex, stdio driver, log, power
    management) in a trace. *)

From Stdlib Require Import ZArith Lia.
From stdpp Require Import base option list gmap strings.

Local Open Scope Z_scope.

(** ** Collaborators *)

(** The stdio driver behind [stdio_base.h], whose implementation is not part
    of the shim: an interface, with a state of its own and the two calls.  A
    buffer argument is the byte sequence found at the pointer.  [stdio_write]
    yields its [ssize_t] result; [stdio_read] yields its [ssize_t] result and
    the bytes it stored at the start of the caller's buffer. *)
Class StdioBase := {
  chan : Type;
  stdio_write : chan -> list Z -> Z -> Z * chan;
  stdio_read : chan -> Z -> Z * list Z * chan
}.

(** The three error numbers of [<errno.h>] the shim stores into [errno]. *)
Class ErrnoCodes := {
  ENODEV : Z;
  ESRCH : Z;
  ENOSYS : Z
}.

(** [struct tms] of [<sys/times.h>]. *)
Record tms := {
  tms_utime : Z;
  tms_stime : Z;
  tms_cutime : Z;
  tms_cstime : Z
}.

(** A call that leaves the shim. *)
Inductive event :=
| EvMutexLock
| EvMutexUnlock
| EvStdioWrite (data : list Z) (len : Z)
| EvStdioRead (len : Z)
| EvLogInfo (n : Z)
| EvPmOff.

(** The bytes a [stdio_write (data, len)] hands to the channel. *)
Definition sent (data : list Z) (len : Z) : list Z := take (Z.to_nat len) data.

(** Everything the channel was given by the calls of a trace, in order. *)
Fixpoint channel_out (tr : list event) : list Z :=
  match tr with
  | [] => []
  | EvStdioWrite data len :: tr' => sent data len ++ channel_out tr'
  | _ :: tr' => channel_out tr'
  end.

(** The lengths asked of [stdio_read] by the calls of a trace. *)
Fixpoint channel_reads (tr : list event) : list Z :=
  match tr with
  | [] => []
  | EvStdioRead len :: tr' => len :: channel_reads tr'
  | _ :: tr' => channel_reads tr'
  end.

(** The calls to [stdio_write] of a trace, with their arguments. *)
Fixpoint stdio_writes (tr : list event) : list (list Z * Z) :=
  match tr with
  | [] => []
  | EvStdioWrite data len :: tr' => (data, len) :: stdio_writes tr'
  | _ :: tr' => stdio_writes tr'
  end.

Definition PICOLIBC_STDOUT_BUFSIZE : Z := 64.

(** A [FILE *]; the stream functions ignore it. *)
Definition FILE : Type := Z.
Definition NULL : FILE := 0.

(** ** The world *)

Section Monad.
Context `{drv : StdioBase}.

(** The objects of file scope, [errno], the [struct tms] objects a caller may
    point [times] at (by address), the driver and the trace. *)
Record World := {
  picolibc_put_mutex : bool;          (* true: locked *)
  picolibc_stdout : list Z;           (* char [PICOLIBC_STDOUT_BUFSIZE] *)
  picolibc_stdout_queued : Z;         (* int *)
  errno : Z;
  tms_objs : gmap Z tms;
  uart : chan;
  trace : list event
}.

Definition set_mutex (b : bool) (w : World) : World :=
  {| picolibc_put_mutex := b;
     picolibc_stdout := picolibc_stdout w;
     picolibc_stdout_queued := picolibc_stdout_queued w;
     errno := errno w; tms_objs := tms_objs w; uart := uart w;
     trace := trace w |}.

Definition set_stdout (buf : list Z) (w : World) : World :=
  {| picolibc_put_mutex := picolibc_put_mutex w;
     picolibc_stdout := buf;
     picolibc_stdout_queued := picolibc_stdout_queued w;
     errno := errno w; tms_objs := tms_objs w; uart := uart w;
     trace := trace w |}.

Definition set_queued (q : Z) (w : World) : World :=
  {| picolibc_put_mutex := picolibc_put_mutex w;
     picolibc_stdout := picolibc_stdout w;
     picolibc_stdout_queued := q;
     errno := errno w; tms_objs := tms_objs w; uart := uart w;
     trace := trace w |}.

Definition set_errno (e : Z) (w : World) : World :=
  {| picolibc_put_mutex := picolibc_put_mutex w;
     picolibc_stdout := picolibc_stdout w;
     picolibc_stdout_queued := picolibc_stdout_queued w;
     errno := e; tms_objs := tms_objs w; uart := uart w;
     trace := trace w |}.

Definition set_uart (ch : chan) (w : World) : World :=
  {| picolibc_put_mutex := picolibc_put_mutex w;
     picolibc_stdout := picolibc_stdout w;
     picolibc_stdout_queued := picolibc_stdout_queued w;
     errno := errno w; tms_objs := tms_objs w; uart := ch;
     trace := trace w |}.

Definition emit (e : event) (w : World) : World :=
  {| picolibc_put_mutex := picolibc_put_mutex w;
     picolibc_stdout := picolibc_stdout w;
     picolibc_stdout_queued := picolibc_stdout_queued w;
     errno := errno w; tms_objs := tms_objs w; uart := uart w;
     trace := trace w ++ [e] |}.

(** Startup: [MUTEX_INIT], zeroed statics, nothing traced yet. *)
Definition init_world (ch : chan) (objs : gmap Z tms) : World :=
  {| picolibc_put_mutex := false;
     picolibc_stdout := replicate (Z.to_nat PICOLIBC_STDOUT_BUFSIZE) 0;
     picolibc_stdout_queued := 0;
     errno := 0; tms_objs := objs; uart := ch; trace := [] |}.

(** ** The monad *)

(** How a call ends. *)
Inductive outcome (A : Type) :=
| Ret (a : A) (w : World)   (* it returns [a] *)
| Spin (w : World)          (* it is still looping when the fuel is spent *)
| Wait (w : World)          (* it is parked in [mutex_lock] *)
| Fault.                    (* undefined behaviour in C *)
Arguments Ret {A} a w.
Arguments Spin {A} w.
Arguments Wait {A} w.
Arguments Fault {A}.

Definition M (A : Type) : Type := World -> outcome A.

Definition ret {A} (a : A) : M A := fun w => Ret a w.

Definition bind {A B} (m : M A) (k : A -> M B) : M B :=
  fun w =>
    match m w with
    | Ret a w' => k a w'
    | Spin w' => Spin w'
    | Wait w' => Wait w'
    | Fault => Fault
    end.

Definition outcome_map {A B} (f : A -> B) (o : outcome A) : outcome B :=
  match o with
  | Ret a w => Ret (f a) w
  | Spin w => Spin w
  | Wait w => Wait w
  | Fault => Fault
  end.

Definition gets {A} (f : World -> A) : M A := fun w => Ret (f w) w.
Definition modify (f : World -> World) : M unit := fun w => Ret tt (f w).

End Monad.

Arguments Ret {drv A} a w.
Arguments Spin {drv A} w.
Arguments Wait {drv A} w.
Arguments Fault {drv A}.

Declare Scope shim_scope.
Delimit Scope shim_scope with shim.
Notation "x <- m ;; k" := (bind m (fun x => k))
  (at level 100, m at level 99, k at level 200, right associativity)
  : shim_scope.
Notation "m ;; k" := (bind m (fun _ => k))
  (at level 100, k at level 200, right associativity) : shim_scope.

Section Syscalls.
Context `{drv : StdioBase} `{err : ErrnoCodes}.
Local Open Scope shim_scope.

(** [while (cond) body], run for at most [fuel] tests of [cond]. *)
Fixpoint while_ (fuel : nat) (cond : M Z) (body : M unit) : M unit :=
  match fuel with
  | O => fun w => Spin w
  | S fuel' =>
      c <- cond ;;
      if c =? 0 then ret tt else body ;; while_ fuel' cond body
  end.

(** ** Calls to collaborators *)

(** Modelled from the spec: [mutex_lock] of [mutex.h], on the one mutex of
    the shim.  It takes a free mutex; on a held one the caller is parked
    until the mutex is free. *)
Definition mutex_lock : M unit :=
  fun w =>
    if picolibc_put_mutex w then Wait w
    else Ret tt (emit EvMutexLock (set_mutex true w)).

(** Modelled from the spec: [mutex_unlock] of [mutex.h]; the mutex is free
    afterwards. *)
Definition mutex_unlock : M unit :=
  modify (fun w => emit EvMutexUnlock (set_mutex false w)).

(** A call to the driver: traced, and answered by the driver. *)
Definition do_stdio_write (data : list Z) (len : Z) : M Z :=
  fun w =>
    let '(r, ch) := stdio_write (uart w) data len in
    Ret r (emit (EvStdioWrite data len) (set_uart ch w)).

Definition do_stdio_read (len : Z) : M (Z * list Z) :=
  fun w =>
    let '(r, bytes, ch) := stdio_read (uart w) len in
    Ret (r, bytes) (emit (EvStdioRead len) (set_uart ch w)).

(** Modelled from the spec: [LOG_INFO ("#! exit %i: powering off\n", n)] of
    [log.h] and [pm_off] of [periph/pm.h], as the requests they are.  A
    [pm_off] that comes back is the case modelled; one that does not leaves
    its caller not returning either. *)
Definition LOG_INFO (n : Z) : M unit := modify (emit (EvLogInfo n)).
Definition pm_off : M unit := modify (emit EvPmOff).

(** ** syscalls.c *)

(** [fuel] bounds the tests of the loop condition that are run. *)
Definition _exit (fuel : nat) (n : Z) : M unit :=
  LOG_INFO n ;;
  pm_off ;;
  while_ fuel (ret 1) (ret tt).

(** The weak default. *)
Definition kill (pid sig : Z) : M Z :=
  modify (set_errno ESRCH) ;;
  ret (-1).

(** [picolibc_stdout[i] = c]; an index outside the array is undefined. *)
Definition stdout_store (i c : Z) : M unit :=
  fun w =>
    if (0 <=? i) && (i <? Z.of_nat (length (picolibc_stdout w)))
    then Ret tt (set_stdout (<[Z.to_nat i := c]> (picolibc_stdout w)) w)
    else Fault.

(** The count goes to [stdio_write] as its length. *)
Definition _picolibc_flush : M unit :=
  q <- gets picolibc_stdout_queued ;;
  if q =? 0 then ret tt
  else
    buf <- gets picolibc_stdout ;;
    do_stdio_write buf q ;;
    modify (set_queued 0).

(** [picolibc_stdout[picolibc_stdout_queued++] = c;] *)
Definition put_store (c : Z) : M unit :=
  q <- gets picolibc_stdout_queued ;;
  modify (set_queued (q + 1)) ;;
  stdout_store q c.

(** [if (picolibc_stdout_queued == PICOLIBC_STDOUT_BUFSIZE || c == '\n')
       _picolibc_flush();] *)
Definition put_check (c : Z) : M unit :=
  q <- gets picolibc_stdout_queued ;;
  if (q =? PICOLIBC_STDOUT_BUFSIZE) || (c =? 10) then _picolibc_flush
  else ret tt.

Definition picolibc_put (c : Z) (file : FILE) : M Z :=
  mutex_lock ;;
  put_store c ;;
  put_check c ;;
  mutex_unlock ;;
  ret 1.

Definition picolibc_flush (file : FILE) : M Z :=
  mutex_lock ;;
  _picolibc_flush ;;
  mutex_unlock ;;
  ret 0.

(** [char c = 0; stdio_read(&c, 1); return c;]: [c] is what the driver
    stored first, and stays 0 when it stored nothing. *)
Definition get_read : M Z :=
  r <- do_stdio_read 1 ;;
  ret (default 0 (head (snd r))).

Definition picolibc_get (file : FILE) : M Z :=
  picolibc_flush NULL ;;
  get_read.

Definition write (fd : Z) (data : list Z) (count : Z) : M Z :=
  do_stdio_write data count.

Definition close (fd : Z) : M Z :=
  modify (set_errno ENODEV) ;;
  ret (-1).

(** [ptms] is the address of the caller's [struct tms]. *)
Definition times (ptms : Z) : M Z :=
  modify (set_errno ENOSYS) ;;
  ret (-1).

(** ** Threads

    The stream is shared by every thread.  A thread is either outside the
    stream code or stands before one statement of [picolibc_put],
    [picolibc_flush] or [picolibc_get]; the system runs the threads one
    statement at a time, in any order. *)

Inductive call :=
| CallPut (c : Z)
| CallFlush
| CallGet.

Inductive pc :=
| Outside (r : option Z)       (* in the caller; [r]: what its last call returned *)
| PutLock (c : Z)              (* put: before [mutex_lock] *)
| PutStore (c : Z)             (* put: before the store into the buffer *)
| PutCheck (c : Z)             (* put: before the [if] *)
| PutUnlock                    (* put: before [mutex_unlock] *)
| FlushLock (in_get : bool)    (* flush: before [mutex_lock] *)
| FlushBody (in_get : bool)    (* flush: before [_picolibc_flush ()] *)
| FlushUnlock (in_get : bool)  (* flush: before [mutex_unlock] *)
| GetRead.                     (* get: before [stdio_read] *)

(** The first statement of a call; [picolibc_get] starts by calling
    [picolibc_flush]. *)
Definition entry (k : call) : pc :=
  match k with
  | CallPut c => PutLock c
  | CallFlush => FlushLock false
  | CallGet => FlushLock true
  end.

(** One statement of a thread: its effect and where the thread stands next. *)
Definition thread_step (p : pc) : M pc :=
  match p with
  | Outside r => ret (Outside r)
  | PutLock c => mutex_lock ;; ret (PutStore c)
  | PutStore c => put_store c ;; ret (PutCheck c)
  | PutCheck c => put_check c ;; ret PutUnlock
  | PutUnlock => mutex_unlock ;; ret (Outside (Some 1))
  | FlushLock g => mutex_lock ;; ret (FlushBody g)
  | FlushBody g => _picolibc_flush ;; ret (FlushUnlock g)
  | FlushUnlock g =>
      mutex_unlock ;; ret (if g then GetRead else Outside (Some 0))
  | GetRead => c <- get_read ;; ret (Outside (Some c))
  end.

(** A thread alone, for at most [n] statements or until it is back in its
    caller. *)
Fixpoint thread_run (n : nat) (p : pc) : M pc :=
  match n, p with
  | O, _ | _, Outside _ => ret p
  | S n', _ => p' <- thread_step p ;; thread_run n' p'
  end.

(** The thread stands between a [mutex_lock] and its [mutex_unlock]. *)
Definition holds (p : pc) : bool :=
  match p with
  | PutStore _ | PutCheck _ | PutUnlock | FlushBody _ | FlushUnlock _ => true
  | Outside _ | PutLock _ | FlushLock _ | GetRead => false
  end.

(** The thread is inside [picolibc_put], [picolibc_flush] or
    [picolibc_get]. *)
Definition inside (p : pc) : bool :=
  match p with
  | Outside _ => false
  | _ => true
  end.

(** The thread stands before a statement that reads or writes
    [picolibc_stdout] or [picolibc_stdout_queued]. *)
Definition at_buffer (p : pc) : bool :=
  match p with
  | PutStore _ | PutCheck _ | FlushBody _ => true
  | _ => false
  end.

(** The thread stands before a call to the stdio driver. *)
Definition at_channel (p : pc) : bool :=
  match p with
  | PutCheck _ | FlushBody _ | GetRead => true
  | _ => false
  end.

Definition system : Type := list pc * World.

Inductive sys_step : system -> system -> Prop :=
| step_call (t : nat) r k (pcs : list pc) w :
    pcs !! t = Some (Outside r) ->
    sys_step (pcs, w) (<[t := entry k]> pcs, w)
| step_stmt (t : nat) p p' (pcs : list pc) w w' :
    pcs !! t = Some p ->
    inside p = true ->
    thread_step p w = Ret p' w' ->
    sys_step (pcs, w) (<[t := p']> pcs, w').

(** What [n] threads can reach from startup. *)
Inductive reachable (n : nat) (ch : chan) (objs : gmap Z tms)
  : system -> Prop :=
| reach_init :
    reachable n ch objs (replicate n (Outside None), init_world ch objs)
| reach_step s s' :
    reachable n ch objs s -> sys_step s s' -> reachable n ch objs s'.

(** A sequence of [picolibc_put] calls by one caller. *)
Fixpoint puts (cs : list Z) (file : FILE) : M unit :=
  match cs with
  | [] => ret tt
  | c :: cs' => picolibc_put c file ;; puts cs' file
  end.

(** The bytes queued in the buffer. *)
Definition queued_bytes (w : World) : list Z :=
  take (Z.to_nat (picolibc_stdout_queued w)) (picolibc_stdout w).

(** The buffer as it is between two calls: the array has its declared size
    and a slot is free. *)
Definition buffer_ok (w : World) : Prop :=
  length (picolibc_stdout w) = Z.to_nat PICOLIBC_STDOUT_BUFSIZE /\
  0 <= picolibc_stdout_queued w < PICOLIBC_STDOUT_BUFSIZE.

(** No call is under way. *)
Definition quiescent (w : World) : Prop :=
  picolibc_put_mutex w = false /\ buffer_ok w.

(** ** The world after each statement *)

Definition locked (w : World) : World := emit EvMutexLock (set_mutex true w).
Definition unlocked (w : World) : World := emit EvMutexUnlock (set_mutex false w).

(** The world [_picolibc_flush] leaves. *)
Definition flushed (w : World) : World :=
  let q := picolibc_stdout_queued w in
  if q =? 0 then w
  else
    set_queued 0
      (emit (EvStdioWrite (picolibc_stdout w) q)
         (set_uart (stdio_write (uart w) (picolibc_stdout w) q).2 w)).

(** The world the store of [picolibc_put] leaves. *)
Definition stored (c : Z) (w : World) : World :=
  let q := picolibc_stdout_queued w in
  set_stdout (<[Z.to_nat q := c]> (picolibc_stdout w)) (set_queued (q + 1) w).

(** The world the [if] of [picolibc_put] leaves. *)
Definition checked (c : Z) (w : World) : World :=
  if (picolibc_stdout_queued w =? PICOLIBC_STDOUT_BUFSIZE) || (c =? 10)
  then flushed w else w.

(** The world the read of [picolibc_get] leaves, and the character read. *)
Definition read_done (w : World) : World :=
  emit (EvStdioRead 1) (set_uart (stdio_read (uart w) 1).2 w).
Definition read_char (w : World) : Z := default 0 (head (stdio_read (uart w) 1).1.2).

(** Every byte taken by the stream so far and not lost: those given to the
    channel, then those still queued. *)
Definition stream_of (w : World) : list Z :=
  channel_out (trace w) ++ queued_bytes w.

(** ** What holds of every reachable system *)

(** The mutex is locked exactly when some thread stands between a lock and
    its unlock, and at most one thread does. *)
Definition lock_inv (s : system) : Prop :=
  (picolibc_put_mutex s.2 = false ->
   forall (t : nat) p, s.1 !! t = Some p -> holds p = false) /\
  (picolibc_put_mutex s.2 = true ->
   exists (t : nat) p, s.1 !! t = Some p /\ holds p = true) /\
  (forall (t1 t2 : nat) p1 p2,
     s.1 !! t1 = Some p1 -> s.1 !! t2 = Some p2 ->
     holds p1 = true -> holds p2 = true -> t1 = t2).

(** The count is within the array, and is at its end only while a put
    stands before its [if]. *)
Definition count_inv (s : system) : Prop :=
  length (picolibc_stdout s.2) = Z.to_nat PICOLIBC_STDOUT_BUFSIZE /\
  0 <= picolibc_stdout_queued s.2 <= PICOLIBC_STDOUT_BUFSIZE /\
  (picolibc_stdout_queued s.2 = PICOLIBC_STDOUT_BUFSIZE ->
   exists (t : nat) c, s.1 !! t = Some (PutCheck c)).

(** The claim that one caller at most is inside the stream code. *)
Definition one_caller_inside (s : system) : Prop :=
  forall (t1 t2 : nat) p1 p2,
    s.1 !! t1 = Some p1 -> s.1 !! t2 = Some p2 ->
    inside p1 = true -> inside p2 = true -> t1 = t2.

(** The claim that a thread about to call the stdio driver holds the
    mutex. *)
Definition channel_calls_guarded (s : system) : Prop :=
  forall (t : nat) p, s.1 !! t = Some p -> at_channel p = true -> holds p = true.

End Syscalls.

(** ** Callers of the stream *)

Section Callers.
Context `{drv : StdioBase}.
Local Open Scope shim_scope.

(** A call on the stream, with the [FILE *] the caller passes. *)
Inductive op :=
| OpPut (c : Z) (file : FILE)
| OpFlush (file : FILE)
| OpGet (file : FILE).

Definition run_op (o : op) : M Z :=
  match o with
  | OpPut c file => picolibc_put c file
  | OpFlush file => picolibc_flush file
  | OpGet file => picolibc_get file
  end.

(** Calls made one after the other by one caller, and what they returned. *)
Fixpoint run_ops (os : list op) : M (list Z) :=
  match os with
  | [] => ret []
  | o :: os' => r <- run_op o ;; rs <- run_ops os' ;; ret (r :: rs)
  end.

(** The bytes the calls put, in call order. *)
Fixpoint put_bytes (os : list op) : list Z :=
  match os with
  | [] => []
  | OpPut c _ :: os' => c :: put_bytes os'
  | _ :: os' => put_bytes os'
  end.

(** The call as a thread starts it. *)
Definition call_of (o : op) : call :=
  match o with
  | OpPut c _ => CallPut c
  | OpFlush _ => CallFlush
  | OpGet _ => CallGet
  end.

(** What a put and a flush return. *)
Definition returned (o : op) (r : Z) : Prop :=
  match o with
  | OpPut _ _ => r = 1
  | OpFlush _ => r = 0
  | OpGet _ => True
  end.

(** A [stdio_write] of a whole line end or of the whole buffer. *)
Definition line_or_full (dl : list Z * Z) : Prop :=
  1 <= dl.2 <= PICOLIBC_STDOUT_BUFSIZE /\
  (dl.2 = PICOLIBC_STDOUT_BUFSIZE \/ last (sent dl.1 dl.2) = Some 10).

(** Walks a trace with the state of the mutex: a lock must find it free, an
    unlock and a [stdio_write] must find it held. *)
Fixpoint guard_walk (held : bool) (tr : list event) : option bool :=
  match tr with
  | [] => Some held
  | EvMutexLock :: tr' => if held then None else guard_walk true tr'
  | EvMutexUnlock :: tr' => if held then guard_walk false tr' else None
  | EvStdioWrite _ _ :: tr' => if held then guard_walk held tr' else None
  | _ :: tr' => guard_walk held tr'
  end.

End Callers.

(** ** The ROM offset linker script (cortexm_common)

    The script's three statements, over the symbols the link defines before
    it.  The linker computes in unsigned words of [bits] bits. *)

Section RomOffset.
Variable bits : N.

Definition ld_word (x : Z) : Z := x mod 2 ^ Z.of_N bits.

(** The symbols before the script: [_rom_offset] and [_fw_rom_length] may be
    undefined, [_rom_length] is defined. *)
Record ld_symbols := {
  _rom_offset : option Z;
  _fw_rom_length : option Z;
  _rom_length : Z
}.

(** [_rom_offset = DEFINED( _rom_offset ) ? _rom_offset : 0x0;] *)
Definition rom_offset_stmt (s : ld_symbols) : ld_symbols :=
  {| _rom_offset := Some (default 0 (_rom_offset s));
     _fw_rom_length := _fw_rom_length s;
     _rom_length := _rom_length s |}.

(** [_fw_rom_length = DEFINED( _fw_rom_length ) ? _fw_rom_length
                                                : _rom_length - _rom_offset;] *)
Definition fw_rom_length_stmt (s : ld_symbols) : option ld_symbols :=
  match _rom_offset s with
  | None => None
  | Some off =>
      Some {| _rom_offset := _rom_offset s;
              _fw_rom_length :=
                Some (default (ld_word (_rom_length s - off))
                        (_fw_rom_length s));
              _rom_length := _rom_length s |}
  end.

(** [ASSERT((_fw_rom_length <= _rom_length - _rom_offset), ...)]: [None]
    when a symbol is undefined. *)
Definition fits_in_rom (s : ld_symbols) : option bool :=
  match _rom_offset s, _fw_rom_length s with
  | Some off, Some fw => Some (fw <=? ld_word (_rom_length s - off))
  | _, _ => None
  end.

Inductive ld_result :=
| Linked (s : ld_symbols)
| LdError (msg : string)
| LdUndefined.

(** The script. *)
Definition rom_offset_script (s : ld_symbols) : ld_result :=
  match fw_rom_length_stmt (rom_offset_stmt s) with
  | None => LdUndefined
  | Some s' =>
      match fits_in_rom s' with
      | None => LdUndefined
      | Some true => Linked s'
      | Some false =>
          LdError "Specified firmware size does not fit in ROM"
      end
  end.

(** The symbols are words. *)
Definition ld_words (s : ld_symbols) : Prop :=
  (forall off, _rom_offset s = Some off -> 0 <= off < 2 ^ Z.of_N bits) /\
  (forall fw, _fw_rom_length s = Some fw -> 0 <= fw < 2 ^ Z.of_N bits) /\
  0 <= _rom_length s < 2 ^ Z.of_N bits.

End RomOffset.

(** * Concrete instances *)

(** A driver over a pipe: what is written is accepted whole, what is read
    comes off the front of the pending input. *)
Definition pipe_uart : StdioBase :=
  {| chan := list Z;
     stdio_write := fun ch _ len => (len, ch);
     stdio_read := fun ch len =>
       (Z.of_nat (length (take (Z.to_nat len) ch)),
        take (Z.to_nat len) ch, drop (Z.to_nat len) ch) |}.

(** The pipe with the bytes [bs] pending. *)
Definition pipe (bs : list Z) : @chan pipe_uart := bs.

(** The error numbers of newlib. *)
Definition newlib_errno : ErrnoCodes :=
  {| ENODEV := 19; ESRCH := 3; ENOSYS := 88 |}.

(** Two threads over the pipe: thread 0 called [picolibc_get] and is about
    to read, thread 1 called [picolibc_put 65] and has taken the mutex. *)
Definition get_meets_put : @system pipe_uart :=
  ([GetRead; PutStore 65],
   {| picolibc_put_mutex := true;
      picolibc_stdout := replicate 64 0;
      picolibc_stdout_queued := 0;
      errno := 0; tms_objs := ∅; uart := pipe [];
      trace := [EvMutexLock; EvMutexUnlock; EvMutexLock] |}).

(** One thread over the pipe: it called [picolibc_put 10], has stored the
    line feed and stands before the [if]. *)
Definition line_ready : @system pipe_uart :=
  ([PutCheck 10],
   {| picolibc_put_mutex := true;
      picolibc_stdout := 10 :: replicate 63 0;
      picolibc_stdout_queued := 1;
      errno := 0; tms_objs := ∅; uart := pipe [];
      trace := [EvMutexLock] |}).

(** Symbols of a link: a 512 KiB ROM with nothing else given, and a 32 KiB
    ROM with a 4 KiB offset and a 28 KiB firmware. *)
Definition rom_512k : ld_symbols :=
  {| _rom_offset := None; _fw_rom_length := None; _rom_length := 0x80000 |}.
Definition slot_28k : ld_symbols :=
  {| _rom_offset := Some 0x1000; _fw_rom_length := Some 0x7000;
     _rom_length := 0x8000 |}.

(** Startup over the pipe with [bs] pending. *)
Definition startup (bs : list Z) : @World pipe_uart :=
  init_world (drv := pipe_uart) (pipe bs) ∅.

(** What a caller and the channel see of a call that returned: the value,
    the bytes given to the channel so far, and the count. *)
Definition observe {A} (o : @outcome pipe_uart A) : option (A * list Z * Z) :=
  match o with
  | Ret a w => Some (a, channel_out (trace w), picolibc_stdout_queued w)
  | _ => None
  end.

(** * Properties *)

Section Properties.
Context `{drv : StdioBase} `{err : ErrnoCodes}.
Local Open Scope shim_scope.

Implicit Types (w : World) (c : Z) (p : pc) (file : FILE).

(** ** The trace *)

Lemma channel_out_app (tr1 tr2 : list event) :
  channel_out (tr1 ++ tr2) = channel_out tr1 ++ channel_out tr2.
Proof.
  induction tr1 as [|e tr1 IH]; simpl; [done|].
  destruct e; simpl; rewrite ?IH, ?app_assoc; done.
Qed.

Lemma channel_reads_app (tr1 tr2 : list event) :
  channel_reads (tr1 ++ tr2) = channel_reads tr1 ++ channel_reads tr2.
Proof.
  induction tr1 as [|e tr1 IH]; simpl; [done|].
  destruct e; simpl; rewrite ?IH; done.
Qed.

Lemma stdio_writes_app (tr1 tr2 : list event) :
  stdio_writes (tr1 ++ tr2) = stdio_writes tr1 ++ stdio_writes tr2.
Proof.
  induction tr1 as [|e tr1 IH]; simpl; [done|].
  destruct e; simpl; rewrite ?IH; done.
Qed.

(** The bytes given to the channel are those of the [stdio_write] calls. *)
Lemma channel_out_writes (tr : list event) :
  channel_out tr = concat (map (fun dl => sent dl.1 dl.2) (stdio_writes tr)).
Proof.
  induction tr as [|e tr IH]; [done|].
  destruct e; simpl; by rewrite ?IH.
Qed.

(** ** One statement *)

Lemma bind_Ret {A B} (m : M A) (k : A -> M B) w a w' :
  m w = Ret a w' -> (x <- m ;; k x) w = k a w'.
Proof. unfold bind. by intros ->. Qed.

Lemma flush_body_eq w : _picolibc_flush w = Ret tt (flushed w).
Proof.
  unfold _picolibc_flush, flushed, bind, gets, modify, do_stdio_write, ret.
  destruct (picolibc_stdout_queued w =? 0); [done|].
  by destruct (stdio_write _ _ _).
Qed.

Lemma put_store_eq c w :
  length (picolibc_stdout w) = Z.to_nat PICOLIBC_STDOUT_BUFSIZE ->
  0 <= picolibc_stdout_queued w < PICOLIBC_STDOUT_BUFSIZE ->
  put_store c w = Ret tt (stored c w).
Proof.
  intros Hlen Hq. unfold PICOLIBC_STDOUT_BUFSIZE in *.
  unfold put_store, stored, bind, gets, modify, stdout_store. simpl.
  rewrite Hlen.
  destruct (Z.leb_spec 0 (picolibc_stdout_queued w)); [|lia].
  destruct (Z.ltb_spec (picolibc_stdout_queued w) (Z.of_nat (Z.to_nat 64)));
    [done|lia].
Qed.

(** Outside the array the store is undefined. *)
Lemma put_store_fault c w :
  ~ (0 <= picolibc_stdout_queued w < Z.of_nat (length (picolibc_stdout w))) ->
  put_store c w = Fault.
Proof.
  intros Hq. unfold put_store, bind, gets, modify, stdout_store. simpl.
  destruct (Z.leb_spec 0 (picolibc_stdout_queued w)); [|done].
  destruct (Z.ltb_spec (picolibc_stdout_queued w)
              (Z.of_nat (length (picolibc_stdout w)))); [lia|done].
Qed.

Lemma put_check_eq c w : put_check c w = Ret tt (checked c w).
Proof.
  unfold put_check, checked, bind, gets, ret.
  destruct (_ || _); [apply flush_body_eq|done].
Qed.

Lemma mutex_lock_free w :
  picolibc_put_mutex w = false -> mutex_lock w = Ret tt (locked w).
Proof. unfold mutex_lock. by intros ->. Qed.

Lemma mutex_lock_held w :
  picolibc_put_mutex w = true -> mutex_lock w = Wait w.
Proof. unfold mutex_lock. by intros ->. Qed.

Lemma mutex_unlock_eq w : mutex_unlock w = Ret tt (unlocked w).
Proof. done. Qed.

(** ** One call, from a quiescent world *)

Lemma put_eq c file w :
  quiescent w ->
  picolibc_put c file w = Ret 1 (unlocked (checked c (stored c (locked w)))).
Proof.
  intros (Hm & Hlen & Hq). unfold picolibc_put.
  rewrite (bind_Ret _ _ _ _ _ (mutex_lock_free w Hm)).
  rewrite (bind_Ret _ _ _ _ _ (put_store_eq c (locked w) Hlen Hq)).
  rewrite (bind_Ret _ _ _ _ _ (put_check_eq c _)).
  by rewrite (bind_Ret _ _ _ _ _ (mutex_unlock_eq _)).
Qed.

Lemma flush_eq file w :
  picolibc_put_mutex w = false ->
  picolibc_flush file w = Ret 0 (unlocked (flushed (locked w))).
Proof.
  intros Hm. unfold picolibc_flush.
  rewrite (bind_Ret _ _ _ _ _ (mutex_lock_free w Hm)).
  rewrite (bind_Ret _ _ _ _ _ (flush_body_eq _)).
  by rewrite (bind_Ret _ _ _ _ _ (mutex_unlock_eq _)).
Qed.

Lemma get_read_eq w : get_read w = Ret (read_char w) (read_done w).
Proof.
  unfold get_read, read_char, read_done, bind, do_stdio_read, ret.
  by destruct (stdio_read _ _) as [[r bytes] ch].
Qed.

Lemma get_eq file w :
  picolibc_put_mutex w = false ->
  let w1 := unlocked (flushed (locked w)) in
  picolibc_get file w = Ret (read_char w1) (read_done w1).
Proof.
  intros Hm. unfold picolibc_get.
  rewrite (bind_Ret _ _ _ _ _ (flush_eq NULL w Hm)). apply get_read_eq.
Qed.

Lemma init_quiescent ch objs : quiescent (init_world ch objs).
Proof.
  unfold quiescent, buffer_ok, init_world, PICOLIBC_STDOUT_BUFSIZE. simpl.
  repeat split; lia.
Qed.

(** After the store, the queued bytes are the old ones followed by [c]. *)
Lemma take_store (buf : list Z) (q c : Z) :
  0 <= q -> (Z.to_nat q < length buf)%nat ->
  take (Z.to_nat (q + 1)) (<[Z.to_nat q := c]> buf)
  = take (Z.to_nat q) buf ++ [c].
Proof.
  intros Hq Hlen. replace (Z.to_nat (q + 1)) with (S (Z.to_nat q)) by lia.
  rewrite (take_S_r _ _ c) by (by apply list_lookup_insert_eq).
  by rewrite take_insert_ge.
Qed.

(** [picolibc_put c] from a quiescent world: it returns 1, [c] goes into
    the slot at the count, the buffer is flushed exactly when it became full
    or [c] is a line feed, and the world is quiescent again. *)
Lemma put_spec c file w :
  quiescent w ->
  let q := picolibc_stdout_queued w in
  let buf := <[Z.to_nat q := c]> (picolibc_stdout w) in
  let flushes := (q + 1 =? PICOLIBC_STDOUT_BUFSIZE) || (c =? 10) in
  exists w',
    picolibc_put c file w = Ret 1 w' /\
    quiescent w' /\
    picolibc_stdout w' = buf /\
    picolibc_stdout_queued w' = (if flushes then 0 else q + 1) /\
    trace w' = trace w ++ [EvMutexLock] ++
      (if flushes then [EvStdioWrite buf (q + 1)] else []) ++
      [EvMutexUnlock] /\
    sent buf (q + 1) = queued_bytes w ++ [c] /\
    errno w' = errno w /\ tms_objs w' = tms_objs w.
Proof.
  intros Hw q buf flushes. eexists. split; [by apply put_eq|].
  destruct Hw as (Hm & Hlen & Hq). unfold PICOLIBC_STDOUT_BUFSIZE in *.
  assert (Hsent : sent buf (q + 1) = queued_bytes w ++ [c])
    by (apply take_store; fold q; lia).
  unfold quiescent, buffer_ok, checked, flushed, PICOLIBC_STDOUT_BUFSIZE.
  simpl. fold q buf flushes.
  destruct flushes eqn:Hf.
  - destruct (q + 1 =? 0) eqn:Hq0; [apply Z.eqb_eq in Hq0; fold q in Hq; lia|].
    simpl. rewrite <- !app_assoc. unfold buf at 1.
    rewrite length_insert. repeat split; try done; lia.
  - apply orb_false_iff in Hf as [Hf1 Hf2]. apply Z.eqb_neq in Hf1.
    simpl. rewrite <- !app_assoc. unfold buf at 1.
    rewrite length_insert. fold q in Hq. repeat split; try done; lia.
Qed.

(** A put neither loses a byte nor reorders them. *)
Lemma put_stream c file w :
  quiescent w ->
  exists w',
    picolibc_put c file w = Ret 1 w' /\ quiescent w' /\
    stream_of w' = stream_of w ++ [c].
Proof.
  intros Hw. destruct (put_spec c file w Hw) as (w' & Hput & Hw' & Hbuf & Hq' & Htr & Hsent & _).
  exists w'. split; [done|]. split; [done|].
  unfold stream_of. rewrite Htr, !channel_out_app. simpl.
  unfold queued_bytes at 1. rewrite Hq', Hbuf.
  destruct (_ || _); simpl.
  - rewrite Hsent, !app_nil_r. by rewrite <- !app_assoc.
  - fold (sent (<[Z.to_nat (picolibc_stdout_queued w) := c]> (picolibc_stdout w))
            (picolibc_stdout_queued w + 1)).
    rewrite Hsent, !app_nil_r. by rewrite <- !app_assoc.
Qed.

Lemma puts_stream (cs : list Z) file w :
  quiescent w ->
  exists w',
    puts cs file w = Ret tt w' /\ quiescent w' /\
    stream_of w' = stream_of w ++ cs.
Proof.
  revert w. induction cs as [|c cs IH]; intros w Hw; simpl.
  - exists w. by rewrite app_nil_r.
  - destruct (put_stream c file w Hw) as (w1 & Hput & Hw1 & Hs1).
    destruct (IH w1 Hw1) as (w2 & Hputs & Hw2 & Hs2).
    exists w2. rewrite (bind_Ret _ _ _ _ _ Hput).
    split; [done|]. split; [done|].
    by rewrite Hs2, Hs1, <- app_assoc.
Qed.

(** [picolibc_flush] with the mutex free: the queued bytes go to the
    channel in one call, none when the buffer is empty. *)
Lemma flush_spec file w :
  picolibc_put_mutex w = false ->
  let q := picolibc_stdout_queued w in
  exists w',
    picolibc_flush file w = Ret 0 w' /\
    picolibc_put_mutex w' = false /\
    picolibc_stdout w' = picolibc_stdout w /\
    picolibc_stdout_queued w' = 0 /\
    trace w' = trace w ++ [EvMutexLock] ++
      (if q =? 0 then [] else [EvStdioWrite (picolibc_stdout w) q]) ++
      [EvMutexUnlock] /\
    channel_out (trace w') = channel_out (trace w) ++ queued_bytes w /\
    errno w' = errno w /\ tms_objs w' = tms_objs w.
Proof.
  intros Hm q. eexists. split; [by apply flush_eq|].
  unfold flushed, queued_bytes. simpl. fold q.
  destruct (Z.eqb_spec q 0) as [Hq|Hq]; simpl.
  - rewrite Hq, <- !app_assoc, !channel_out_app, !app_nil_r. done.
  - rewrite <- !app_assoc, !channel_out_app. simpl.
    rewrite !app_nil_r. done.
Qed.

(** ** The stream, one caller *)

(** A put that neither fills the buffer nor carries a line feed calls
    nothing but the mutex. *)
Lemma put_quiet c file w :
  quiescent w ->
  picolibc_stdout_queued w + 1 < PICOLIBC_STDOUT_BUFSIZE -> c <> 10 ->
  exists w',
    picolibc_put c file w = Ret 1 w' /\ quiescent w' /\
    picolibc_stdout_queued w' = picolibc_stdout_queued w + 1 /\
    trace w' = trace w ++ [EvMutexLock; EvMutexUnlock] /\
    queued_bytes w' = queued_bytes w ++ [c].
Proof.
  intros Hw Hq Hc.
  destruct (put_spec c file w Hw)
    as (w' & Hput & Hw' & Hbuf & Hq' & Htr & Hsent & _).
  destruct (Z.eqb_spec (picolibc_stdout_queued w + 1) PICOLIBC_STDOUT_BUFSIZE);
    [lia|].
  destruct (Z.eqb_spec c 10); [done|]. simpl in *.
  exists w'. repeat split; try done; try apply Hw'.
  unfold queued_bytes at 1. by rewrite Hq', Hbuf.
Qed.

Lemma puts_quiet (cs : list Z) file w :
  quiescent w ->
  picolibc_stdout_queued w + Z.of_nat (length cs) < PICOLIBC_STDOUT_BUFSIZE ->
  10 ∉ cs ->
  exists w',
    puts cs file w = Ret tt w' /\ quiescent w' /\
    stdio_writes (trace w') = stdio_writes (trace w) /\
    channel_reads (trace w') = channel_reads (trace w) /\
    queued_bytes w' = queued_bytes w ++ cs.
Proof.
  revert w. induction cs as [|c cs IH]; intros w Hw Hlen Hnl; simpl.
  - exists w. by rewrite app_nil_r.
  - simpl in Hlen. apply not_elem_of_cons in Hnl as [Hc Hnl].
    destruct (put_quiet c file w Hw) as (w1 & Hput & Hw1 & Hq1 & Htr1 & Hb1);
      [lia|done|].
    destruct (IH w1 Hw1) as (w2 & Hputs & Hw2 & Hwr & Hrd & Hb2);
      [lia|done|].
    exists w2. rewrite (bind_Ret _ _ _ _ _ Hput).
    split; [done|]. split; [done|].
    rewrite Hwr, Hrd, Hb2, Hb1, Htr1, stdio_writes_app, channel_reads_app.
    simpl. by rewrite !app_nil_r, <- app_assoc.
Qed.

(** C2.  Puts that neither fill the buffer nor carry a line feed make no
    call to [stdio_write]; the bytes stay queued, and the next
    [picolibc_flush] or [picolibc_get] gives the channel exactly the queued
    bytes, in the order put (for [picolibc_get], before it reads). *)
Theorem short_puts_reach_channel_on_flush (cs : list Z) (file file' : FILE)
    (w : World)
    (Hw : quiescent w)
    (Hlen : picolibc_stdout_queued w + Z.of_nat (length cs)
            < PICOLIBC_STDOUT_BUFSIZE)
    (Hnl : 10 ∉ cs) :
  exists w',
    puts cs file w = Ret tt w' /\
    stdio_writes (trace w') = stdio_writes (trace w) /\
    channel_out (trace w') = channel_out (trace w) /\
    queued_bytes w' = queued_bytes w ++ cs /\
    (exists wf,
       picolibc_flush file' w' = Ret 0 wf /\
       channel_out (trace wf)
         = channel_out (trace w') ++ queued_bytes w ++ cs /\
       picolibc_stdout_queued wf = 0) /\
    (exists b wf wg,
       picolibc_flush NULL w' = Ret 0 wf /\
       picolibc_get file' w' = Ret b wg /\
       trace wg = trace wf ++ [EvStdioRead 1] /\
       channel_out (trace wg)
         = channel_out (trace w') ++ queued_bytes w ++ cs /\
       picolibc_stdout_queued wg = 0).
Proof.
  destruct (puts_quiet cs file w Hw Hlen Hnl)
    as (w' & Hputs & Hw' & Hwr & _ & Hb).
  exists w'. split; [done|]. split; [done|].
  split; [by rewrite !channel_out_writes, Hwr|]. split; [done|].
  destruct Hw' as (Hm & _).
  split.
  - destruct (flush_spec file' w' Hm)
      as (wf & Hfl & _ & _ & Hqf & _ & Hof & _).
    exists wf. by rewrite Hof, Hb.
  - destruct (flush_spec NULL w' Hm)
      as (wf & Hfl & _ & _ & Hqf & _ & Hof & _).
    exists (read_char wf), wf, (read_done wf). split; [done|].
    unfold picolibc_get. rewrite (bind_Ret _ _ _ _ _ Hfl).
    split; [apply get_read_eq|]. split; [done|]. simpl.
    rewrite channel_out_app, Hof, Hb. simpl. by rewrite app_nil_r.
Qed.

(** C3.  From a quiescent world, a put of a line feed stores it behind the
    queued bytes and flushes before it unlocks and returns: the one
    [stdio_write] it makes carries the queued bytes and the line feed last.
    A put of any byte returns 1. *)
Theorem put_line_feed_flushes (file : FILE) (w : World)
    (Hw : quiescent w) :
  let q := picolibc_stdout_queued w in
  let buf := <[Z.to_nat q := 10]> (picolibc_stdout w) in
  (exists w',
     picolibc_put 10 file w = Ret 1 w' /\
     trace w' = trace w ++
       [EvMutexLock; EvStdioWrite buf (q + 1); EvMutexUnlock] /\
     sent buf (q + 1) = queued_bytes w ++ [10] /\
     last (sent buf (q + 1)) = Some 10 /\
     picolibc_stdout_queued w' = 0 /\
     picolibc_put_mutex w' = false) /\
  (forall c, exists w', picolibc_put c file w = Ret 1 w').
Proof.
  intros q buf. split.
  - destruct (put_spec 10 file w Hw)
      as (w' & Hput & Hw' & _ & Hq & Htr & Hsent & _).
    rewrite orb_true_r in *. simpl in *. fold q buf in Htr, Hsent.
    exists w'. repeat split; try done; try apply Hw'.
    rewrite Hsent. apply last_snoc.
  - intros c. destruct (put_spec c file w Hw) as (w' & Hput & _). by exists w'.
Qed.

(** C4.  With the mutex free, [picolibc_get] first runs [picolibc_flush]
    (lock, one [stdio_write] of the queued bytes unless the count is 0,
    unlock), then makes one [stdio_read] of length 1 and returns the byte the
    driver stored, if it stored one. *)
Theorem get_flushes_then_reads (file : FILE) (w : World)
    (Hm : picolibc_put_mutex w = false) :
  let q := picolibc_stdout_queued w in
  exists b wf wg,
    picolibc_flush NULL w = Ret 0 wf /\
    picolibc_get file w = Ret b wg /\
    trace wf = trace w ++ [EvMutexLock] ++
      (if q =? 0 then [] else [EvStdioWrite (picolibc_stdout w) q]) ++
      [EvMutexUnlock] /\
    channel_out (trace wf) = channel_out (trace w) ++ queued_bytes w /\
    trace wg = trace wf ++ [EvStdioRead 1] /\
    channel_reads (trace wg) = channel_reads (trace w) ++ [1] /\
    picolibc_stdout_queued wg = 0 /\
    (forall r x rest ch,
       stdio_read (uart wf) 1 = (r, x :: rest, ch) -> b = x).
Proof.
  intros q.
  destruct (flush_spec NULL w Hm) as (wf & Hfl & _ & _ & Hqf & Htr & Hof & _).
  exists (read_char wf), wf, (read_done wf). split; [done|].
  unfold picolibc_get. rewrite (bind_Ret _ _ _ _ _ Hfl).
  split; [apply get_read_eq|]. split; [done|]. split; [done|].
  split; [done|]. split.
  - simpl. rewrite Htr, !channel_reads_app. simpl.
    destruct (picolibc_stdout_queued w =? 0); simpl; by rewrite ?app_nil_r.
  - split; [done|]. intros r x rest ch Hrd. unfold read_char.
    by rewrite Hrd.
Qed.

(** ** The other entry points *)

Lemma while_one_spins (fuel : nat) w :
  while_ fuel (ret 1) (ret tt) w = Spin w.
Proof. induction fuel as [|fuel IH]; [done|]. simpl. apply IH. Qed.

(** C5.  [_exit n] logs [n], then calls [pm_off], then loops: whatever the
    fuel it is still in the loop, so it returns in no world and with no
    value, and nothing is traced after the power-off request. *)
Theorem exit_never_returns (fuel : nat) (n : Z) (w : World) :
  exists w',
    _exit fuel n w = Spin w' /\
    trace w' = trace w ++ [EvLogInfo n; EvPmOff] /\
    (forall a w'', _exit fuel n w <> Ret a w'').
Proof.
  exists (emit EvPmOff (emit (EvLogInfo n) w)).
  assert (Hexit : _exit fuel n w = Spin (emit EvPmOff (emit (EvLogInfo n) w))).
  { unfold _exit, bind, LOG_INFO, pm_off, modify. apply while_one_spins. }
  split; [done|]. split.
  - simpl. by rewrite <- app_assoc.
  - intros a w''. by rewrite Hexit.
Qed.

(** C6.  [write] hands [data] and [count] to [stdio_write] as they are,
    whatever [fd], makes no other call, and returns the driver's result. *)
Theorem write_delegates (fd : Z) (data : list Z) (count : Z) (w : World) :
  exists w',
    write fd data count w = Ret (stdio_write (uart w) data count).1 w' /\
    trace w' = trace w ++ [EvStdioWrite data count] /\
    uart w' = (stdio_write (uart w) data count).2.
Proof.
  unfold write, do_stdio_write.
  destruct (stdio_write _ _ _) as [r ch]. by eexists.
Qed.

(** C7.  [close], [kill] and [times] return -1 with [errno] set to
    [ENODEV], [ESRCH] and [ENOSYS], for every argument and in every world,
    and call no collaborator. *)
Theorem unsupported_calls_fail (fd pid sig ptms : Z) (w : World) :
  (exists w', close fd w = Ret (-1) w' /\ errno w' = ENODEV /\
              trace w' = trace w) /\
  (exists w', kill pid sig w = Ret (-1) w' /\ errno w' = ESRCH /\
              trace w' = trace w) /\
  (exists w', times ptms w = Ret (-1) w' /\ errno w' = ENOSYS /\
              trace w' = trace w).
Proof. repeat split; by eexists. Qed.

(** C8.  [times ptms] stores into no [struct tms] object: the one at
    [ptms], if there is one, is as it was. *)
Theorem times_leaves_record (ptms : Z) (w : World) :
  exists w',
    times ptms w = Ret (-1) w' /\
    tms_objs w' = tms_objs w /\
    tms_objs w' !! ptms = tms_objs w !! ptms.
Proof. by eexists. Qed.

(** C10.  [write] neither locks nor flushes: the buffer, the count and the
    mutex are as before, the bytes put earlier are still queued, and the one
    [stdio_write] it makes carries [data], not the buffer. *)
Theorem write_bypasses_buffer (fd : Z) (data : list Z) (count : Z)
    (w : World) :
  exists r w',
    write fd data count w = Ret r w' /\
    picolibc_stdout w' = picolibc_stdout w /\
    picolibc_stdout_queued w' = picolibc_stdout_queued w /\
    picolibc_put_mutex w' = picolibc_put_mutex w /\
    queued_bytes w' = queued_bytes w /\
    stdio_writes (trace w') = stdio_writes (trace w) ++ [(data, count)] /\
    channel_out (trace w') = channel_out (trace w) ++ sent data count.
Proof.
  unfold write, do_stdio_write.
  destruct (stdio_write _ _ _) as [r ch]. eexists _, _.
  split; [done|]. simpl.
  rewrite stdio_writes_app, channel_out_app. simpl.
  by rewrite app_nil_r.
Qed.

(** ** Threads *)

(** A call run statement by statement is the call. *)
Lemma put_as_thread c file w :
  thread_run 4 (PutLock c) w
  = outcome_map (fun r => Outside (Some r)) (picolibc_put c file w).
Proof.
  cbv [thread_run thread_step picolibc_put bind ret outcome_map].
  destruct (mutex_lock w) as [[] w1| | |]; try done.
  destruct (put_store c w1) as [[] w2| | |]; try done.
  destruct (put_check c w2) as [[] w3| | |]; try done.
Qed.

Lemma flush_as_thread file w :
  thread_run 3 (FlushLock false) w
  = outcome_map (fun r => Outside (Some r)) (picolibc_flush file w).
Proof.
  cbv [thread_run thread_step picolibc_flush bind ret outcome_map].
  destruct (mutex_lock w) as [[] w1| | |]; try done.
  destruct (_picolibc_flush w1) as [[] w2| | |]; try done.
Qed.

Lemma get_as_thread file w :
  thread_run 4 (FlushLock true) w
  = outcome_map (fun r => Outside (Some r)) (picolibc_get file w).
Proof.
  cbv [thread_run thread_step picolibc_get picolibc_flush mutex_unlock modify
       bind ret outcome_map].
  destruct (mutex_lock w) as [[] w1| | |]; try done.
  destruct (_picolibc_flush w1) as [[] w2| | |]; try done.
  destruct (get_read _) as [r w3| | |]; try done.
Qed.

Lemma flushed_mutex w :
  picolibc_put_mutex (flushed w) = picolibc_put_mutex w.
Proof. unfold flushed. by destruct (picolibc_stdout_queued w =? 0). Qed.

(** What one statement does to the mutex: it takes it, gives it back, or
    leaves it. *)
Lemma thread_step_mutex p w p' w' :
  thread_step p w = Ret p' w' ->
  (holds p = false /\ holds p' = true /\
   picolibc_put_mutex w = false /\ picolibc_put_mutex w' = true) \/
  (holds p = true /\ holds p' = false /\ picolibc_put_mutex w' = false) \/
  (holds p' = holds p /\ picolibc_put_mutex w' = picolibc_put_mutex w).
Proof.
  destruct p as [r|c|c|c| |g|g|g| ]; simpl; unfold bind, ret.
  - intros [= <- <-]. by right; right.
  - unfold mutex_lock. destruct (picolibc_put_mutex w) eqn:Hm; [done|].
    intros [= <- <-]. by left.
  - destruct (put_store c w) as [[] w1| | |] eqn:Hst; try done.
    intros [= <- <-]. right; right. split; [done|].
    revert Hst. unfold put_store, bind, gets, modify, stdout_store. simpl.
    destruct (_ && _); [|done]. by intros [= <-].
  - rewrite put_check_eq. intros [= <- <-]. right; right. split; [done|].
    unfold checked. destruct (_ || _); [apply flushed_mutex|done].
  - intros [= <- <-]. right; left. done.
  - unfold mutex_lock. destruct (picolibc_put_mutex w) eqn:Hm; [done|].
    intros [= <- <-]. by left.
  - rewrite flush_body_eq. intros [= <- <-]. right; right. split; [done|].
    apply flushed_mutex.
  - intros [= <- <-]. right; left. by destruct g.
  - rewrite get_read_eq. intros [= <- <-]. by right; right.
Qed.

Lemma lock_inv_init n ch objs :
  lock_inv (replicate n (Outside None), init_world ch objs).
Proof.
  split; [|split]; simpl.
  - intros _ t p [-> _]%lookup_replicate. done.
  - done.
  - intros t1 t2 p1 p2 [-> _]%lookup_replicate. done.
Qed.

Lemma lock_inv_step s s' : lock_inv s -> sys_step s s' -> lock_inv s'.
Proof.
  intros (Hfree & Hheld & Hone) Hstep.
  destruct Hstep as [t r k pcs w Ht|t p p' pcs w w' Ht Hin Hst]; simpl in *.
  - (* a call: the caller held nothing and holds nothing *)
    assert (Hk : holds (entry k) = false) by (by destruct k).
    split; [|split]; simpl.
    + intros Hm t' q [(-> & <- & _)|(_ & Hq)]%list_lookup_insert_Some;
        [done|by eapply Hfree].
    + intros Hm. destruct (Hheld Hm) as (t' & q & Hq & Hh).
      exists t', q. split; [|done].
      rewrite list_lookup_insert_ne; [done|]. intros ->.
      rewrite Ht in Hq. by injection Hq as <-.
    + intros t1 t2 p1 p2
        [(_ & <- & _)|(_ & H1)]%list_lookup_insert_Some
        [(_ & <- & _)|(_ & H2)]%list_lookup_insert_Some Hh1 Hh2;
        try congruence.
      by eapply Hone.
  - (* a statement *)
    assert (Hlt : (t < length pcs)%nat) by (by eapply lookup_lt_Some).
    destruct (thread_step_mutex _ _ _ _ Hst)
      as [(Hp & Hp' & Hm & Hm')|[(Hp & Hp' & Hm')|(Hp' & Hm')]].
    + (* it takes the mutex: nobody held it *)
      split; [|split]; simpl.
      * congruence.
      * intros _. exists t, p'. by rewrite list_lookup_insert_eq.
      * intros t1 t2 p1 p2
          [(<- & _ & _)|(_ & H1)]%list_lookup_insert_Some
          [(<- & _ & _)|(_ & H2)]%list_lookup_insert_Some Hh1 Hh2;
          try done.
        -- rewrite (Hfree Hm _ _ H2) in Hh2. done.
        -- rewrite (Hfree Hm _ _ H1) in Hh1. done.
        -- by eapply Hone.
    + (* it gives the mutex back: nobody else held it *)
      assert (Hnone : forall (t' : nat) q,
                <[t := p']> pcs !! t' = Some q -> holds q = false).
      { intros t' q [(_ & <- & _)|(Hne & Hq)]%list_lookup_insert_Some;
          [done|].
        destruct (holds q) eqn:Hh; [|done].
        destruct Hne. by eapply Hone. }
      split; [|split]; simpl.
      * intros _. apply Hnone.
      * congruence.
      * intros t1 t2 p1 p2 H1 _ Hh1 _. rewrite (Hnone _ _ H1) in Hh1. done.
    + (* it leaves the mutex *)
      split; [|split]; simpl.
      * rewrite Hm'. intros Hm t' q
          [(_ & <- & _)|(_ & Hq)]%list_lookup_insert_Some.
        -- rewrite Hp'. by eapply Hfree.
        -- by eapply Hfree.
      * rewrite Hm'. intros Hm. destruct (Hheld Hm) as (t' & q & Hq & Hh).
        destruct (decide (t' = t)) as [->|Hne].
        -- exists t, p'. rewrite list_lookup_insert_eq by done.
           split; [done|]. rewrite Hp'. congruence.
        -- exists t', q. by rewrite list_lookup_insert_ne.
      * intros t1 t2 p1 p2
          [(<- & <- & _)|(Hne1 & H1)]%list_lookup_insert_Some
          [(<- & <- & _)|(Hne2 & H2)]%list_lookup_insert_Some Hh1 Hh2;
          try done.
        -- rewrite Hp' in Hh1. by eapply Hone.
        -- rewrite Hp' in Hh2. by eapply Hone.
        -- by eapply Hone.
Qed.

Lemma reachable_lock_inv n ch objs s :
  reachable n ch objs s -> lock_inv s.
Proof.
  induction 1 as [|s s' _ IH Hstep]; [apply lock_inv_init|].
  by eapply lock_inv_step.
Qed.

(** What one statement does to the buffer and the count. *)
Lemma thread_step_buffer p w p' w' :
  thread_step p w = Ret p' w' ->
  let q := picolibc_stdout_queued w in
  length (picolibc_stdout w') = length (picolibc_stdout w) /\
  match p with
  | PutStore c =>
      0 <= q < Z.of_nat (length (picolibc_stdout w)) /\
      picolibc_stdout_queued w' = q + 1 /\ p' = PutCheck c
  | PutCheck c =>
      picolibc_stdout_queued w'
      = if (q =? PICOLIBC_STDOUT_BUFSIZE) || (c =? 10) then 0 else q
  | FlushBody _ => picolibc_stdout_queued w' = 0
  | _ =>
      picolibc_stdout_queued w' = q /\
      forall c, p = PutCheck c <-> p' = PutCheck c
  end.
Proof.
  assert (Hfl : forall w0, picolibc_stdout (flushed w0) = picolibc_stdout w0
                           /\ picolibc_stdout_queued (flushed w0) = 0).
  { intros w0. unfold flushed.
    by destruct (Z.eqb_spec (picolibc_stdout_queued w0) 0). }
  destruct p as [r|c|c|c| |g|g|g| ]; simpl; unfold bind, ret.
  - by intros [= <- <-].
  - unfold mutex_lock. destruct (picolibc_put_mutex w); [done|].
    by intros [= <- <-].
  - destruct (put_store c w) as [[] w1| | |] eqn:Hst; try done.
    intros [= <- <-]. revert Hst.
    unfold put_store, bind, gets, modify, stdout_store. simpl.
    destruct (Z.leb_spec 0 (picolibc_stdout_queued w)); [|done].
    destruct (Z.ltb_spec (picolibc_stdout_queued w)
                (Z.of_nat (length (picolibc_stdout w)))); [|done].
    simpl. intros [= <-]. simpl. by rewrite length_insert.
  - rewrite put_check_eq. intros [= <- <-]. unfold checked.
    destruct (_ || _); [|done]. destruct (Hfl w) as [-> ->]. done.
  - by intros [= <- <-].
  - unfold mutex_lock. destruct (picolibc_put_mutex w); [done|].
    by intros [= <- <-].
  - rewrite flush_body_eq. intros [= <- <-].
    destruct (Hfl w) as [-> ->]. done.
  - intros [= <- <-]. by destruct g.
  - rewrite get_read_eq. by intros [= <- <-].
Qed.

Lemma count_inv_init n ch objs :
  count_inv (replicate n (Outside None), init_world ch objs).
Proof. unfold count_inv, PICOLIBC_STDOUT_BUFSIZE. simpl. repeat split; lia. Qed.

Lemma count_inv_step s s' :
  lock_inv s -> count_inv s -> sys_step s s' -> count_inv s'.
Proof.
  intros (_ & _ & Hone) (Hlen & Hq & Hend) Hstep.
  unfold count_inv, PICOLIBC_STDOUT_BUFSIZE in *.
  destruct Hstep as [t r k pcs w Ht|t p p' pcs w w' Ht Hin Hst]; simpl in *.
  - split; [done|]. split; [done|]. intros Hfull.
    destruct (Hend Hfull) as (t' & c & Hc). exists t', c.
    rewrite list_lookup_insert_ne; [done|]. intros ->. congruence.
  - assert (Hlt : (t < length pcs)%nat) by (by eapply lookup_lt_Some).
    destruct (thread_step_buffer _ _ _ _ Hst) as [Hlen' Hbuf].
    rewrite Hlen', Hlen. split; [done|].
    assert (Hkeep : (forall c, p <> PutCheck c) ->
              picolibc_stdout_queued w = 64 ->
              exists (t' : nat) c', <[t := p']> pcs !! t' = Some (PutCheck c')).
    { intros Hp Hfull. destruct (Hend Hfull) as (t' & c' & Hc).
      exists t', c'. rewrite list_lookup_insert_ne; [done|].
      intros ->. rewrite Ht in Hc. injection Hc as Hc. by apply (Hp c'). }
    destruct p as [r|c|c|c| |g|g|g| ]; simpl in Hbuf; try done;
      try (rewrite (proj1 Hbuf); split; [done|]; by apply Hkeep).
    + destruct Hbuf as ((Hq0 & Hq1) & -> & ->). rewrite Hlen in Hq1.
      split; [lia|]. intros _. exists t, c.
      by rewrite list_lookup_insert_eq.
    + rewrite Hbuf. unfold PICOLIBC_STDOUT_BUFSIZE.
      destruct (Z.eqb_spec (picolibc_stdout_queued w) 64); simpl;
        [split; [lia|intros [=]]|].
      destruct (c =? 10); [split; [lia|intros [=]]|].
      split; [lia|]. done.
    + rewrite Hbuf. split; [lia|intros [=]].
Qed.

Lemma reachable_count_inv n ch objs s :
  reachable n ch objs s -> count_inv s.
Proof.
  induction 1 as [|s s' Hr IH Hstep]; [apply count_inv_init|].
  eapply count_inv_step; [|done|done]. by eapply reachable_lock_inv.
Qed.

(** A put about to store finds a free slot, under any interleaving. *)
Lemma reachable_store_in_bounds n ch objs (pcs : list pc) w (t : nat) c :
  reachable n ch objs (pcs, w) ->
  pcs !! t = Some (PutStore c) ->
  0 <= picolibc_stdout_queued w < PICOLIBC_STDOUT_BUFSIZE /\
  put_store c w = Ret tt (stored c w).
Proof.
  intros Hr Ht.
  destruct (reachable_lock_inv _ _ _ _ Hr) as (_ & _ & Hone).
  destruct (reachable_count_inv _ _ _ _ Hr) as (Hlen & Hq & Hend).
  simpl in *.
  assert (Hlt : picolibc_stdout_queued w < PICOLIBC_STDOUT_BUFSIZE).
  { destruct (decide (picolibc_stdout_queued w = PICOLIBC_STDOUT_BUFSIZE))
      as [Hfull|]; [|lia].
    destruct (Hend Hfull) as (t' & c' & Hc).
    assert (t = t') as <- by (by eapply Hone). congruence. }
  split; [lia|]. apply put_store_eq; [done|lia].
Qed.

(** A statement run without the mutex changes neither the buffer nor the
    count and makes no [stdio_write]. *)
Lemma thread_step_unguarded p w p' w' :
  thread_step p w = Ret p' w' -> holds p = false ->
  picolibc_stdout w' = picolibc_stdout w /\
  picolibc_stdout_queued w' = picolibc_stdout_queued w /\
  stdio_writes (trace w') = stdio_writes (trace w).
Proof.
  destruct p as [r|c|c|c| |g|g|g| ]; simpl; unfold bind, ret; try done.
  - by intros [= <- <-].
  - unfold mutex_lock. destruct (picolibc_put_mutex w); [done|].
    intros [= <- <-] _. simpl. by rewrite stdio_writes_app, app_nil_r.
  - unfold mutex_lock. destruct (picolibc_put_mutex w); [done|].
    intros [= <- <-] _. simpl. by rewrite stdio_writes_app, app_nil_r.
  - rewrite get_read_eq. intros [= <- <-] _. simpl.
    by rewrite stdio_writes_app, app_nil_r.
Qed.

(** Between calls the world is quiescent: when every thread is back in its
    caller, the mutex is free and a slot is free. *)
Lemma reachable_idle_quiescent n ch objs (pcs : list pc) w :
  reachable n ch objs (pcs, w) ->
  (forall (t : nat) p, pcs !! t = Some p -> inside p = false) ->
  quiescent w.
Proof.
  intros Hr Hidle.
  destruct (reachable_lock_inv _ _ _ _ Hr) as (_ & Hheld & _).
  destruct (reachable_count_inv _ _ _ _ Hr) as (Hlen & Hq & Hend).
  simpl in *. split; [|split; [done|]].
  - destruct (picolibc_put_mutex w) eqn:Hm; [|done].
    destruct (Hheld eq_refl) as (t & p & Ht & Hh).
    specialize (Hidle t p Ht). by destruct p.
  - destruct (decide (picolibc_stdout_queued w = PICOLIBC_STDOUT_BUFSIZE))
      as [Hfull|]; [|lia].
    destruct (Hend Hfull) as (t & c & Ht).
    specialize (Hidle t _ Ht). done.
Qed.

(** C1.  From any quiescent world (startup is one), every sequence of
    [picolibc_put] calls returns (no store lands outside the array, which
    would be [Fault]), leaves the count within [0, 64] and every byte either
    given to the channel or still queued, in the order put.  A further put
    that brings the count to 64 writes all 64 bytes to the channel in one
    call and resets the count to 0.  And at every instant of every
    interleaving of [n] threads the count is within [0, 64], the array has
    its 64 slots, and a put about to store finds the count below 64. *)
Theorem put_keeps_count_bounded (cs : list Z) (file : FILE) (w : World)
    (Hw : quiescent w)
    (n : nat) (ch : chan) (objs : gmap Z tms) (s : system)
    (Hr : reachable n ch objs s) :
  (exists w',
     puts cs file w = Ret tt w' /\
     quiescent w' /\
     0 <= picolibc_stdout_queued w' <= PICOLIBC_STDOUT_BUFSIZE /\
     stream_of w' = stream_of w ++ cs /\
     forall c,
       picolibc_stdout_queued w' + 1 = PICOLIBC_STDOUT_BUFSIZE ->
       let buf := <[Z.to_nat (picolibc_stdout_queued w') := c]>
                    (picolibc_stdout w') in
       exists w'',
         picolibc_put c file w' = Ret 1 w'' /\
         trace w'' = trace w' ++
           [EvMutexLock; EvStdioWrite buf PICOLIBC_STDOUT_BUFSIZE;
            EvMutexUnlock] /\
         sent buf PICOLIBC_STDOUT_BUFSIZE = queued_bytes w' ++ [c] /\
         length (sent buf PICOLIBC_STDOUT_BUFSIZE)
           = Z.to_nat PICOLIBC_STDOUT_BUFSIZE /\
         picolibc_stdout_queued w'' = 0) /\
  (0 <= picolibc_stdout_queued s.2 <= PICOLIBC_STDOUT_BUFSIZE /\
   length (picolibc_stdout s.2) = Z.to_nat PICOLIBC_STDOUT_BUFSIZE /\
   forall (t : nat) c,
     s.1 !! t = Some (PutStore c) ->
     picolibc_stdout_queued s.2 < PICOLIBC_STDOUT_BUFSIZE /\
     exists w', put_store c s.2 = Ret tt w').
Proof.
  split.
  - destruct (puts_stream cs file w Hw) as (w' & Hputs & Hw' & Hs).
    exists w'. split; [done|]. split; [done|].
    split; [destruct Hw' as (_ & _ & ?); lia|]. split; [done|].
    intros c Hfull buf.
    destruct (put_spec c file w' Hw')
      as (w'' & Hput & _ & _ & Hq & Htr & Hsent & _).
    exists w''. rewrite Hfull in *. rewrite Z.eqb_refl in *. simpl in *.
    fold buf in Htr, Hsent.
    split; [done|]. split; [done|]. split; [done|]. split; [|done].
    rewrite Hsent, length_app. unfold queued_bytes.
    destruct Hw' as (_ & Hlen & ?). rewrite length_take, Hlen. simpl.
    unfold PICOLIBC_STDOUT_BUFSIZE in *. lia.
  - destruct (reachable_count_inv _ _ _ _ Hr) as (Hlen & Hq & _).
    split; [done|]. split; [done|]. intros t c Ht. destruct s as [pcs ws].
    destruct (reachable_store_in_bounds _ _ _ _ _ _ _ Hr Ht) as [? Hst].
    simpl. split; [lia|]. by eexists.
Qed.

(** C9, amended.  In every system [n] threads can reach: at most one
    thread stands between a [mutex_lock] and its [mutex_unlock], and the mutex
    is locked exactly when one does (so it is free once the holder is back in
    its caller); every statement that touches the buffer or the count, and
    every statement that changes them or calls [stdio_write], is run by that
    thread.  The [stdio_read] of [picolibc_get] is not: the thread about to
    make it holds nothing and reads whatever the state of the mutex. *)
Theorem guard_excludes_writers (n : nat) (ch : chan) (objs : gmap Z tms)
    (s : system) (Hr : reachable n ch objs s) :
  (forall (t1 t2 : nat) p1 p2,
     s.1 !! t1 = Some p1 -> s.1 !! t2 = Some p2 ->
     holds p1 = true -> holds p2 = true -> t1 = t2) /\
  (picolibc_put_mutex s.2 = true <->
   exists (t : nat) p, s.1 !! t = Some p /\ holds p = true) /\
  (forall (t : nat) p,
     s.1 !! t = Some p -> at_buffer p = true ->
     holds p = true /\ picolibc_put_mutex s.2 = true) /\
  (forall (t : nat) p p' w',
     s.1 !! t = Some p -> thread_step p s.2 = Ret p' w' ->
     picolibc_stdout w' <> picolibc_stdout s.2 \/
     picolibc_stdout_queued w' <> picolibc_stdout_queued s.2 \/
     stdio_writes (trace w') <> stdio_writes (trace s.2) ->
     holds p = true /\ picolibc_put_mutex s.2 = true) /\
  (forall (t : nat) p r w',
     s.1 !! t = Some p -> holds p = true ->
     thread_step p s.2 = Ret (Outside r) w' ->
     picolibc_put_mutex w' = false) /\
  (forall (t : nat),
     s.1 !! t = Some GetRead ->
     holds GetRead = false /\
     exists b w',
       thread_step GetRead s.2 = Ret (Outside (Some b)) w' /\
       channel_reads (trace w') = channel_reads (trace s.2) ++ [1] /\
       picolibc_put_mutex w' = picolibc_put_mutex s.2).
Proof.
  destruct (reachable_lock_inv _ _ _ _ Hr) as (Hfree & Hheld & Hone).
  assert (Hlocked : forall (t : nat) p,
            s.1 !! t = Some p -> holds p = true ->
            picolibc_put_mutex s.2 = true).
  { intros t p Ht Hh. destruct (picolibc_put_mutex s.2) eqn:Hm; [done|].
    rewrite (Hfree eq_refl _ _ Ht) in Hh. done. }
  split; [done|]. split; [|split; [|split; [|split]]].
  - split; [done|]. intros (t & p & Ht & Hh). by eapply Hlocked.
  - intros t p Ht Hb.
    assert (Hh : holds p = true) by (by destruct p).
    split; [done|]. by eapply Hlocked.
  - intros t p p' w' Ht Hst Hch.
    destruct (holds p) eqn:Hh; [split; [done|by eapply Hlocked]|].
    destruct (thread_step_unguarded _ _ _ _ Hst Hh) as (? & ? & ?).
    by destruct Hch as [?|[?|?]].
  - intros t p r w' Ht Hh Hst.
    destruct (thread_step_mutex _ _ _ _ Hst)
      as [(Hp & _)|[(_ & _ & Hm')|(Hp' & _)]]; [congruence|done|].
    simpl in Hp'. congruence.
  - intros t Ht. split; [done|].
    exists (read_char s.2), (read_done s.2). simpl. unfold bind, ret.
    rewrite get_read_eq. split; [done|]. simpl.
    by rewrite channel_reads_app.
Qed.

End Properties.

(** * More of the stream *)

Section StreamProperties.
Context `{drv : StdioBase}.
Local Open Scope shim_scope.

Implicit Types (w : World) (c : Z) (p : pc) (file : FILE).

(** [picolibc_flush] between calls: nothing is lost and nothing stays
    queued. *)
Lemma flush_stream file w :
  quiescent w ->
  exists w',
    picolibc_flush file w = Ret 0 w' /\ quiescent w' /\
    picolibc_stdout_queued w' = 0 /\
    stream_of w' = stream_of w.
Proof.
  intros (Hm & Hlen & Hq).
  destruct (flush_spec file w Hm)
    as (w' & Hfl & Hm' & Hbuf & Hq' & _ & Hout & _).
  exists w'. split; [done|]. split; [|split; [done|]].
  - unfold quiescent, buffer_ok, PICOLIBC_STDOUT_BUFSIZE in *.
    rewrite Hbuf, Hq'. repeat split; try done; lia.
  - unfold stream_of, queued_bytes at 1. rewrite Hout, Hq'. simpl.
    by rewrite app_nil_r.
Qed.

Lemma get_stream file w :
  quiescent w ->
  exists b w',
    picolibc_get file w = Ret b w' /\ quiescent w' /\
    picolibc_stdout_queued w' = 0 /\
    stream_of w' = stream_of w.
Proof.
  intros Hw. destruct (flush_stream NULL w Hw) as (wf & Hfl & Hwf & Hq & Hs).
  exists (read_char wf), (read_done wf). unfold picolibc_get.
  rewrite (bind_Ret _ _ _ _ _ Hfl). split; [apply get_read_eq|].
  split; [done|]. split; [done|]. rewrite <- Hs.
  unfold stream_of, queued_bytes. simpl.
  by rewrite channel_out_app, app_nil_r.
Qed.

(** X1.  Whatever mix of puts, flushes and gets one caller makes from a
    quiescent world, and whatever [FILE *] it passes to each, every call
    returns, every put returns 1 and every flush 0, the world is quiescent
    again, and the bytes given to the channel followed by those still queued
    are the old ones followed by the bytes put, in call order. *)
Theorem calls_keep_the_stream (os : list op) (w : World)
    (Hw : quiescent w) :
  exists rs w',
    run_ops os w = Ret rs w' /\
    Forall2 returned os rs /\
    quiescent w' /\
    stream_of w' = stream_of w ++ put_bytes os.
Proof.
  revert w Hw. induction os as [|o os IH]; intros w Hw; simpl.
  - exists [], w. by rewrite app_nil_r.
  - assert (Hop : exists r w1, run_op o w = Ret r w1 /\ returned o r /\
                    quiescent w1 /\
                    stream_of w1 = stream_of w ++ put_bytes [o]).
    { destruct o as [c file|file|file]; simpl.
      - destruct (put_stream c file w Hw) as (w1 & Hput & Hw1 & Hs).
        by exists 1, w1.
      - destruct (flush_stream file w Hw) as (w1 & Hfl & Hw1 & _ & Hs).
        exists 0, w1. by rewrite app_nil_r.
      - destruct (get_stream file w Hw) as (b & w1 & Hget & Hw1 & _ & Hs).
        exists b, w1. by rewrite app_nil_r. }
    destruct Hop as (r & w1 & Hop & Hr & Hw1 & Hs1).
    destruct (IH w1 Hw1) as (rs & w2 & Hrun & Hrs & Hw2 & Hs2).
    exists (r :: rs), w2. rewrite (bind_Ret _ _ _ _ _ Hop).
    rewrite (bind_Ret _ _ _ _ _ Hrun).
    split; [done|]. split; [by constructor|]. split; [done|].
    rewrite Hs2, Hs1, <- app_assoc. f_equal. by destruct o.
Qed.

(** What a put adds to the calls of [stdio_write]. *)
Lemma put_writes c file w :
  quiescent w ->
  exists w' new,
    picolibc_put c file w = Ret 1 w' /\ quiescent w' /\
    stdio_writes (trace w') = stdio_writes (trace w) ++ new /\
    Forall line_or_full new.
Proof.
  intros Hw.
  destruct (put_spec c file w Hw)
    as (w' & Hput & Hw' & _ & _ & Htr & Hsent & _).
  destruct Hw as (_ & _ & Hq). unfold PICOLIBC_STDOUT_BUFSIZE in *.
  destruct (Z.eqb_spec (picolibc_stdout_queued w + 1) 64) as [Hfull|Hfree];
    simpl in Htr.
  - eexists w', [_]. split; [done|]. split; [done|].
    rewrite Htr, stdio_writes_app. split; [done|].
    constructor; [|done]. unfold line_or_full, PICOLIBC_STDOUT_BUFSIZE.
    simpl. split; [lia|by left].
  - destruct (Z.eqb_spec c 10) as [->|Hc]; simpl in Htr.
    + eexists w', [_]. split; [done|]. split; [done|].
      rewrite Htr, stdio_writes_app. split; [done|].
      constructor; [|done]. unfold line_or_full, PICOLIBC_STDOUT_BUFSIZE.
      simpl. split; [lia|right]. rewrite Hsent. apply last_snoc.
    + exists w', []. split; [done|]. split; [done|].
      rewrite Htr, stdio_writes_app. simpl. split; [done|].
      constructor.
Qed.

(** X2.  Puts alone hand the channel nothing but whole line ends and whole
    buffers: every [stdio_write] a sequence of puts makes carries between 1
    and 64 bytes, and either all 64 or bytes ending in a line feed. *)
Theorem puts_write_lines_or_buffers (cs : list Z) (file : FILE) (w : World)
    (Hw : quiescent w) :
  exists w' new,
    puts cs file w = Ret tt w' /\
    stdio_writes (trace w') = stdio_writes (trace w) ++ new /\
    Forall line_or_full new.
Proof.
  revert w Hw. induction cs as [|c cs IH]; intros w Hw; simpl.
  - exists w, []. by rewrite app_nil_r.
  - destruct (put_writes c file w Hw) as (w1 & new1 & Hput & Hw1 & Htr1 & Hn1).
    destruct (IH w1 Hw1) as (w2 & new2 & Hputs & Htr2 & Hn2).
    exists w2, (new1 ++ new2). rewrite (bind_Ret _ _ _ _ _ Hput).
    split; [done|]. rewrite Htr2, Htr1, <- app_assoc. split; [done|].
    by apply Forall_app.
Qed.

Lemma puts_snoc (cs cs' : list Z) file w w1 :
  puts cs file w = Ret tt w1 ->
  puts (cs ++ cs') file w = puts cs' file w1.
Proof.
  revert w. induction cs as [|c cs IH]; intros w; simpl.
  - by intros [= ->].
  - unfold bind. destruct (picolibc_put c file w) as [r w0| | |]; try done.
    apply IH.
Qed.

(** X3.  A line feed ends the waiting: after puts that end in a line feed
    nothing is queued, and the channel has been given every byte accepted so
    far, the line feed last. *)
Theorem line_feed_empties_buffer (cs : list Z) (file : FILE) (w : World)
    (Hw : quiescent w) :
  exists w',
    puts (cs ++ [10]) file w = Ret tt w' /\
    picolibc_stdout_queued w' = 0 /\
    queued_bytes w' = [] /\
    channel_out (trace w') = stream_of w ++ cs ++ [10].
Proof.
  destruct (puts_stream cs file w Hw) as (w1 & Hputs & Hw1 & Hs1).
  destruct (put_spec 10 file w1 Hw1)
    as (w2 & Hput & _ & _ & Hq & Htr & Hsent & _).
  rewrite orb_true_r in Hq, Htr. simpl in Htr.
  exists w2. rewrite (puts_snoc _ _ _ _ _ Hputs). simpl.
  rewrite (bind_Ret _ _ _ _ _ Hput).
  split; [done|]. split; [done|].
  unfold queued_bytes at 1. rewrite Hq. simpl. split; [done|].
  rewrite Htr, channel_out_app. simpl. rewrite Hsent, app_nil_r.
  rewrite (app_assoc (stream_of w)), <- Hs1. unfold stream_of.
  by rewrite <- app_assoc.
Qed.

(** X4.  A flush right after a flush finds nothing to send: it makes no
    [stdio_write], and the buffer keeps its bytes (the count alone says what
    is queued). *)
Theorem flush_twice_writes_once (file file' : FILE) (w : World)
    (Hm : picolibc_put_mutex w = false) :
  exists w1 w2,
    picolibc_flush file w = Ret 0 w1 /\
    picolibc_flush file' w1 = Ret 0 w2 /\
    channel_out (trace w1) = channel_out (trace w) ++ queued_bytes w /\
    stdio_writes (trace w2) = stdio_writes (trace w1) /\
    picolibc_stdout_queued w2 = 0 /\
    picolibc_stdout w2 = picolibc_stdout w.
Proof.
  destruct (flush_spec file w Hm)
    as (w1 & Hfl1 & Hm1 & Hbuf1 & Hq1 & _ & Hout1 & _).
  destruct (flush_spec file' w1 Hm1)
    as (w2 & Hfl2 & _ & Hbuf2 & Hq2 & Htr2 & _).
  exists w1, w2. rewrite Hq1 in Htr2. simpl in Htr2.
  repeat split; try done.
  - rewrite Htr2, stdio_writes_app. simpl. by rewrite app_nil_r.
  - by rewrite Hbuf2.
Qed.

Lemma write_eq (fd : Z) (data : list Z) (count : Z) w :
  write fd data count w
  = Ret (stdio_write (uart w) data count).1
      (emit (EvStdioWrite data count)
         (set_uart (stdio_write (uart w) data count).2 w)).
Proof. unfold write, do_stdio_write. by destruct (stdio_write _ _ _). Qed.

(** X5.  The bulk [write] overtakes the stream: bytes put earlier and still
    queued reach the channel after the bytes of a later [write], at the next
    flush. *)
Theorem bulk_write_overtakes_queued (cs : list Z) (file file' : FILE)
    (fd : Z) (data : list Z) (count : Z) (w : World)
    (Hw : quiescent w)
    (Hlen : picolibc_stdout_queued w + Z.of_nat (length cs)
            < PICOLIBC_STDOUT_BUFSIZE)
    (Hnl : 10 ∉ cs) :
  exists w',
    (puts cs file ;; write fd data count ;; picolibc_flush file') w
    = Ret 0 w' /\
    channel_out (trace w')
    = channel_out (trace w) ++ sent data count ++ (queued_bytes w ++ cs).
Proof.
  destruct (puts_quiet cs file w Hw Hlen Hnl)
    as (w1 & Hputs & (Hm1 & _) & Hwr & _ & Hb).
  set (w2 := emit (EvStdioWrite data count)
               (set_uart (stdio_write (uart w1) data count).2 w1)).
  destruct (flush_spec file' w2 Hm1) as (w3 & Hfl & _ & _ & _ & _ & Hout & _).
  exists w3. rewrite (bind_Ret _ _ _ _ _ Hputs).
  rewrite (bind_Ret _ _ _ _ _ (write_eq fd data count w1)). fold w2.
  split; [done|]. rewrite Hout. unfold w2 at 1. simpl.
  rewrite channel_out_app. simpl. rewrite app_nil_r.
  rewrite (channel_out_writes (trace w1)), Hwr, <- channel_out_writes.
  rewrite <- app_assoc. do 2 f_equal. exact Hb.
Qed.

(** X6.  A read that stores nothing is not reported: when the driver
    stores no byte (whatever it returns), [picolibc_get] returns 0, as it
    does for a byte 0. *)
Theorem get_returns_zero_without_byte (file : FILE) (w wf : World)
    (r : Z) (ch : chan)
    (Hfl : picolibc_flush NULL w = Ret 0 wf)
    (Hrd : stdio_read (uart wf) 1 = (r, [], ch)) :
  exists wg,
    picolibc_get file w = Ret 0 wg /\
    trace wg = trace wf ++ [EvStdioRead 1].
Proof.
  exists (read_done wf). unfold picolibc_get.
  rewrite (bind_Ret _ _ _ _ _ Hfl), get_read_eq.
  unfold read_char. by rewrite Hrd.
Qed.

(** ** More of the threads *)

Lemma flushed_stream w : stream_of (flushed w) = stream_of w.
Proof.
  unfold flushed, stream_of, queued_bytes.
  destruct (picolibc_stdout_queued w =? 0); [done|]. simpl.
  rewrite channel_out_app. simpl. unfold sent.
  by rewrite !app_nil_r.
Qed.

Lemma flushed_writes w :
  stdio_writes (trace (flushed w))
  = stdio_writes (trace w) ++
      (if picolibc_stdout_queued w =? 0 then []
       else [(picolibc_stdout w, picolibc_stdout_queued w)]).
Proof.
  unfold flushed. destruct (picolibc_stdout_queued w =? 0); simpl.
  - by rewrite app_nil_r.
  - by rewrite stdio_writes_app.
Qed.

Lemma put_store_inv c w w' :
  put_store c w = Ret tt w' ->
  0 <= picolibc_stdout_queued w < Z.of_nat (length (picolibc_stdout w)) /\
  w' = stored c w.
Proof.
  unfold put_store, stored, bind, gets, modify, stdout_store. simpl.
  destruct (Z.leb_spec 0 (picolibc_stdout_queued w)); [|done].
  destruct (Z.ltb_spec (picolibc_stdout_queued w)
              (Z.of_nat (length (picolibc_stdout w)))); [|done].
  simpl. by intros [= <-].
Qed.

(** A statement leaves the stream as it is, except the store of a put,
    which adds its byte at the end. *)
Lemma thread_step_stream p w p' w' :
  thread_step p w = Ret p' w' ->
  stream_of w' = stream_of w ++
    match p with PutStore c => [c] | _ => [] end.
Proof.
  destruct p as [r|c|c|c| |g|g|g| ]; simpl; unfold bind, ret.
  - intros [= <- <-]. by rewrite app_nil_r.
  - unfold mutex_lock. destruct (picolibc_put_mutex w); [done|].
    intros [= <- <-]. unfold stream_of, queued_bytes. simpl.
    by rewrite channel_out_app, !app_nil_r.
  - destruct (put_store c w) as [[] w1| | |] eqn:Hst; try done.
    intros [= <- <-]. apply put_store_inv in Hst as [[Hq0 Hq1] ->].
    unfold stream_of, queued_bytes, stored. simpl.
    rewrite take_store by lia. by rewrite app_assoc.
  - rewrite put_check_eq. intros [= <- <-]. rewrite app_nil_r.
    unfold checked. destruct (_ || _); [apply flushed_stream|done].
  - intros [= <- <-]. unfold stream_of, queued_bytes. simpl.
    by rewrite channel_out_app, !app_nil_r.
  - unfold mutex_lock. destruct (picolibc_put_mutex w); [done|].
    intros [= <- <-]. unfold stream_of, queued_bytes. simpl.
    by rewrite channel_out_app, !app_nil_r.
  - rewrite flush_body_eq. intros [= <- <-]. rewrite app_nil_r.
    apply flushed_stream.
  - intros [= <- <-]. unfold stream_of, queued_bytes. simpl.
    by rewrite channel_out_app, !app_nil_r.
  - rewrite get_read_eq. intros [= <- <-].
    unfold stream_of, queued_bytes. simpl.
    by rewrite channel_out_app, !app_nil_r.
Qed.

(** X7.  Under any interleaving no byte is lost or reordered: a step of the
    system leaves the stream (the bytes given to the channel, then the
    queued ones) as it is, unless it is the store of some put, which then
    adds its byte at the end. *)
Theorem step_extends_stream (s s' : system) (Hstep : sys_step s s') :
  stream_of s'.2 = stream_of s.2 \/
  exists (t : nat) c,
    s.1 !! t = Some (PutStore c) /\
    s'.1 !! t = Some (PutCheck c) /\
    stream_of s'.2 = stream_of s.2 ++ [c].
Proof.
  destruct Hstep as [t r k pcs w Ht|t p p' pcs w w' Ht Hin Hst]; simpl.
  - by left.
  - pose proof (thread_step_stream _ _ _ _ Hst) as Hs.
    destruct p as [r|c|c|c| |g|g|g| ];
      try (left; by rewrite Hs, app_nil_r).
    right. exists t, c. split; [done|]. split; [|done].
    simpl in Hst. unfold bind, ret in Hst.
    destruct (put_store c w) as [[] w1| | |]; try done.
    injection Hst as <- <-. apply list_lookup_insert_eq.
    by eapply lookup_lt_Some.
Qed.

(** X8.  The thread that holds the mutex is never stuck: alone, it reaches
    its unlock within three statements, without fault or wait, having made
    at most one [stdio_write]; it then holds nothing and the mutex is
    free. *)
Theorem holder_runs_to_unlock (n : nat) (ch : chan) (objs : gmap Z tms)
    (pcs : list pc) (w : World) (t : nat) (p : pc)
    (Hr : reachable n ch objs (pcs, w))
    (Ht : pcs !! t = Some p)
    (Hh : holds p = true) :
  exists (k : nat) p' w',
    (k <= 3)%nat /\
    thread_run k p w = Ret p' w' /\
    holds p' = false /\
    picolibc_put_mutex w' = false /\
    (length (stdio_writes (trace w'))
     <= S (length (stdio_writes (trace w))))%nat.
Proof.
  assert (Hck : forall c w0,
            (length (stdio_writes (trace (checked c w0)))
             <= S (length (stdio_writes (trace w0))))%nat).
  { intros c w0. unfold checked. destruct (_ || _); [|lia].
    rewrite flushed_writes, length_app.
    destruct (_ =? 0); simpl; lia. }
  assert (Hun : forall w0,
            stdio_writes (trace (unlocked w0)) = stdio_writes (trace w0)).
  { intros w0. simpl. by rewrite stdio_writes_app, app_nil_r. }
  destruct p as [r|c|c|c| |g|g|g| ]; try done.
  - destruct (reachable_store_in_bounds _ _ _ _ _ _ _ Hr Ht) as [_ Hst].
    exists 3%nat, (Outside (Some 1)), (unlocked (checked c (stored c w))).
    split; [lia|]. split.
    + cbv [thread_run thread_step bind ret]. by rewrite Hst, put_check_eq.
    + split; [done|]. split; [done|]. rewrite Hun.
      etrans; [apply Hck|]. unfold stored. simpl. lia.
  - exists 2%nat, (Outside (Some 1)), (unlocked (checked c w)).
    split; [lia|]. split.
    + cbv [thread_run thread_step bind ret]. by rewrite put_check_eq.
    + split; [done|]. split; [done|]. rewrite Hun. apply Hck.
  - exists 1%nat, (Outside (Some 1)), (unlocked w).
    split; [lia|]. split; [done|]. split; [done|]. split; [done|].
    rewrite Hun. lia.
  - exists 2%nat, (if g then GetRead else Outside (Some 0)),
      (unlocked (flushed w)).
    split; [lia|]. split.
    + cbv [thread_run thread_step bind ret]. rewrite flush_body_eq.
      by destruct g.
    + split; [by destruct g|]. split; [done|]. rewrite Hun.
      rewrite flushed_writes, length_app. destruct (_ =? 0); simpl; lia.
  - exists 1%nat, (if g then GetRead else Outside (Some 0)), (unlocked w).
    split; [lia|]. split; [by destruct g|]. split; [by destruct g|].
    split; [done|]. rewrite Hun. lia.
Qed.

(** X9.  Under any interleaving the driver is asked to write from the
    buffer only, and never past its end: a [stdio_write] made by a statement
    of the stream in a reachable world is given the 64-byte array and a
    length between 1 and 64. *)
Theorem stream_writes_within_buffer (n : nat) (ch : chan)
    (objs : gmap Z tms) (pcs : list pc) (w w' : World) (p p' : pc)
    (Hr : reachable n ch objs (pcs, w))
    (Hst : thread_step p w = Ret p' w') :
  exists new,
    stdio_writes (trace w') = stdio_writes (trace w) ++ new /\
    Forall (fun dl : list Z * Z =>
              dl.1 = picolibc_stdout w /\
              length dl.1 = Z.to_nat PICOLIBC_STDOUT_BUFSIZE /\
              1 <= dl.2 <= PICOLIBC_STDOUT_BUFSIZE) new.
Proof.
  destruct (reachable_count_inv _ _ _ _ Hr) as (Hlen & Hq & _).
  simpl in Hlen, Hq.
  assert (Hfl : exists new,
            stdio_writes (trace (flushed w)) = stdio_writes (trace w) ++ new /\
            Forall (fun dl : list Z * Z =>
                      dl.1 = picolibc_stdout w /\
                      length dl.1 = Z.to_nat PICOLIBC_STDOUT_BUFSIZE /\
                      1 <= dl.2 <= PICOLIBC_STDOUT_BUFSIZE) new).
  { rewrite flushed_writes.
    destruct (Z.eqb_spec (picolibc_stdout_queued w) 0).
    - exists []. split; [done|]. constructor.
    - eexists [_]. split; [done|]. constructor; [|constructor].
      simpl. split; [done|]. split; [done|]. lia. }
  assert (Hno : forall e, (forall d l, e <> EvStdioWrite d l) ->
            stdio_writes (trace w ++ [e]) = stdio_writes (trace w) ++ []).
  { intros e He. rewrite stdio_writes_app. f_equal.
    destruct e; try done. by destruct (He data len). }
  revert Hst.
  destruct p as [r|c|c|c| |g|g|g| ]; simpl; unfold bind, ret.
  - intros [= <- <-]. exists []. by rewrite app_nil_r.
  - unfold mutex_lock. destruct (picolibc_put_mutex w); [done|].
    intros [= <- <-]. exists []. by split; [apply Hno|].
  - destruct (put_store c w) as [[] w1| | |] eqn:Hst; try done.
    intros [= <- <-]. apply put_store_inv in Hst as [_ ->].
    exists []. by rewrite app_nil_r.
  - rewrite put_check_eq. intros [= <- <-]. unfold checked.
    destruct (_ || _); [done|]. exists []. by rewrite app_nil_r.
  - intros [= <- <-]. exists []. by split; [apply Hno|].
  - unfold mutex_lock. destruct (picolibc_put_mutex w); [done|].
    intros [= <- <-]. exists []. by split; [apply Hno|].
  - rewrite flush_body_eq. by intros [= <- <-].
  - intros [= <- <-]. exists []. by split; [apply Hno|].
  - rewrite get_read_eq. intros [= <- <-]. exists [].
    by split; [apply Hno|].
Qed.

Lemma guard_walk_app (held : bool) (tr1 tr2 : list event) :
  guard_walk held (tr1 ++ tr2)
  = match guard_walk held tr1 with
    | Some held' => guard_walk held' tr2
    | None => None
    end.
Proof.
  revert held. induction tr1 as [|e tr1 IH]; intros held; [done|].
  destruct e, held; simpl; by rewrite ?IH.
Qed.

(** What a statement adds to the trace passes the walk. *)
Lemma thread_step_guard p w p' w' :
  thread_step p w = Ret p' w' ->
  (holds p = true -> picolibc_put_mutex w = true) ->
  exists evs,
    trace w' = trace w ++ evs /\
    guard_walk (picolibc_put_mutex w) evs = Some (picolibc_put_mutex w').
Proof.
  assert (Hfl : picolibc_put_mutex w = true ->
            exists evs, trace (flushed w) = trace w ++ evs /\
              guard_walk (picolibc_put_mutex w) evs
              = Some (picolibc_put_mutex (flushed w))).
  { intros Hm. rewrite flushed_mutex. unfold flushed.
    destruct (_ =? 0); simpl.
    - exists []. by rewrite app_nil_r.
    - eexists [_]. split; [done|]. by rewrite Hm. }
  destruct p as [r|c|c|c| |g|g|g| ]; simpl; unfold bind, ret.
  - intros [= <- <-] _. exists []. by rewrite app_nil_r.
  - unfold mutex_lock. destruct (picolibc_put_mutex w) eqn:Hm; [done|].
    intros [= <- <-] _. by exists [EvMutexLock].
  - destruct (put_store c w) as [[] w1| | |] eqn:Hst; try done.
    intros [= <- <-] _. apply put_store_inv in Hst as [_ ->].
    exists []. by rewrite app_nil_r.
  - rewrite put_check_eq. intros [= <- <-] Hm. specialize (Hm eq_refl). unfold checked.
    destruct (_ || _); [by apply Hfl|]. exists []. by rewrite app_nil_r.
  - intros [= <- <-] Hm. specialize (Hm eq_refl). exists [EvMutexUnlock]. by rewrite Hm.
  - unfold mutex_lock. destruct (picolibc_put_mutex w) eqn:Hm; [done|].
    intros [= <- <-] _. by exists [EvMutexLock].
  - rewrite flush_body_eq. intros [= <- <-] Hm. specialize (Hm eq_refl). by apply Hfl.
  - intros [= <- <-] Hm. specialize (Hm eq_refl). exists [EvMutexUnlock]. by rewrite Hm.
  - rewrite get_read_eq. intros [= <- <-] _. by exists [EvStdioRead 1].
Qed.

(** X10.  What the collaborators see, under any interleaving: in the trace
    of a reachable world locks and unlocks alternate, starting with a lock,
    every [stdio_write] lies between a lock and the next unlock, and the
    trace ends locked exactly when the mutex is. *)
Theorem reachable_trace_guarded (n : nat) (ch : chan) (objs : gmap Z tms)
    (s : system) (Hr : reachable n ch objs s) :
  guard_walk false (trace s.2) = Some (picolibc_put_mutex s.2).
Proof.
  induction Hr as [|s s' Hr IH Hstep]; [done|].
  destruct (reachable_lock_inv _ _ _ _ Hr) as (Hfree & _ & _).
  destruct Hstep as [t r k pcs w Ht|t p p' pcs w w' Ht Hin Hst];
    simpl in *; [done|].
  destruct (thread_step_guard _ _ _ _ Hst) as (evs & -> & Hwalk).
  - intros Hh. destruct (picolibc_put_mutex w) eqn:Hm; [done|].
    rewrite (Hfree eq_refl _ _ Ht) in Hh. done.
  - by rewrite guard_walk_app, IH.
Qed.

(** With the mutex free the world is as between calls. *)
Lemma reachable_free_quiescent n ch objs (pcs : list pc) w :
  reachable n ch objs (pcs, w) ->
  picolibc_put_mutex w = false ->
  quiescent w.
Proof.
  intros Hr Hm.
  destruct (reachable_lock_inv _ _ _ _ Hr) as (Hfree & _ & _).
  destruct (reachable_count_inv _ _ _ _ Hr) as (Hlen & Hq & Hend).
  simpl in *. split; [done|]. split; [done|].
  destruct (decide (picolibc_stdout_queued w = PICOLIBC_STDOUT_BUFSIZE))
    as [Hfull|]; [|lia].
  destruct (Hend Hfull) as (t & c & Ht).
  by specialize (Hfree Hm t _ Ht).
Qed.

(** The statements a thread runs alone are steps of the system. *)
Lemma thread_run_reachable n ch objs (k : nat) :
  forall (pcs : list pc) w (t : nat) p p' w',
    reachable n ch objs (pcs, w) ->
    pcs !! t = Some p ->
    thread_run k p w = Ret p' w' ->
    reachable n ch objs (<[t := p']> pcs, w').
Proof.
  induction k as [|k IH]; intros pcs w t p p' w' Hr Ht Hrun.
  - assert (p' = p /\ w' = w) as [-> ->]
      by (destruct p; by injection Hrun as <- <-).
    by rewrite list_insert_id.
  - destruct (inside p) eqn:Hin.
    + assert (Hrun' : (p1 <- thread_step p ;; thread_run k p1) w = Ret p' w')
        by (by destruct p).
      unfold bind in Hrun'.
      destruct (thread_step p w) as [p1 w1| | |] eqn:Hst; try done.
      assert (Hlt : (t < length pcs)%nat) by (by eapply lookup_lt_Some).
      rewrite <- (list_insert_insert_eq pcs t p' p1).
      eapply IH; [|by apply list_lookup_insert_eq|done].
      eapply reach_step; [done|]. by eapply step_stmt.
    + assert (p' = p /\ w' = w) as [-> ->]
        by (destruct p; try done; by injection Hrun as <- <-).
      by rewrite list_insert_id.
Qed.

(** A thread back in its caller stays there. *)
Lemma thread_run_more (k : nat) :
  forall p w r w',
    thread_run k p w = Ret (Outside r) w' ->
    thread_run (S k) p w = Ret (Outside r) w'.
Proof.
  induction k as [|k IH]; intros p w r w' Hrun.
  - assert (p = Outside r /\ w' = w) as [-> ->]
      by (destruct p; by injection Hrun as <- <-).
    done.
  - destruct (inside p) eqn:Hin; [|by destruct p].
    assert (Hrun' : (p1 <- thread_step p ;; thread_run k p1) w
                    = Ret (Outside r) w') by (by destruct p).
    assert (Hgoal : thread_run (S (S k)) p w
                    = (p1 <- thread_step p ;; thread_run (S k) p1) w)
      by (by destruct p).
    rewrite Hgoal. unfold bind in *.
    destruct (thread_step p w) as [p1 w1| | |]; try done. by apply IH.
Qed.

(** X11.  Whenever the mutex is free, a thread that is in its caller can
    make any call on the stream and run it to its return without waiting and
    without fault; what the call returns and the world it leaves are those of
    the call made alone, and the system it leaves is one the threads can
    reach. *)
Theorem free_mutex_lets_a_call_run (n : nat) (ch : chan)
    (objs : gmap Z tms) (pcs : list pc) (w : World) (t : nat)
    (r : option Z) (o : op)
    (Hr : reachable n ch objs (pcs, w))
    (Ht : pcs !! t = Some (Outside r))
    (Hm : picolibc_put_mutex w = false) :
  exists v w',
    run_op o w = Ret v w' /\
    thread_run 4 (entry (call_of o)) w = Ret (Outside (Some v)) w' /\
    reachable n ch objs (<[t := Outside (Some v)]> pcs, w').
Proof.
  pose proof (reachable_free_quiescent _ _ _ _ _ Hr Hm) as Hw.
  assert (Hlt : (t < length pcs)%nat) by (by eapply lookup_lt_Some).
  assert (Hop : exists v w',
            run_op o w = Ret v w' /\
            thread_run 4 (entry (call_of o)) w = Ret (Outside (Some v)) w').
  { destruct o as [c file|file|file]; simpl run_op; simpl entry.
    - exists 1, (unlocked (checked c (stored c (locked w)))).
      rewrite (put_as_thread c file), (put_eq c file w Hw). done.
    - exists 0, (unlocked (flushed (locked w))).
      split; [by apply flush_eq|]. apply thread_run_more.
      rewrite (flush_as_thread file), (flush_eq file w Hm). done.
    - eexists _, _. rewrite (get_as_thread file), (get_eq file w Hm). done. }
  destruct Hop as (v & w' & Hop & Hrun). exists v, w'.
  split; [done|]. split; [done|].
  rewrite <- (list_insert_insert_eq pcs t (Outside (Some v))
                (entry (call_of o))).
  eapply thread_run_reachable; [|by apply list_lookup_insert_eq|done].
  eapply reach_step; [done|]. by eapply step_call.
Qed.

End StreamProperties.

(** * The ROM offset script *)

Section RomOffsetProperties.
Variable bits : N.

(** X12.  With [_fw_rom_length] left undefined the script always links,
    whatever the offset, even one beyond the ROM: the length becomes the rest
    of the ROM as the linker computes it, which the assertion compares with
    itself; the offset is the one given, or 0. *)
Theorem default_length_always_links (s : ld_symbols)
    (Hfw : _fw_rom_length s = None) :
  rom_offset_script bits s
  = Linked
      {| _rom_offset := Some (default 0 (_rom_offset s));
         _fw_rom_length :=
           Some (ld_word bits (_rom_length s - default 0 (_rom_offset s)));
         _rom_length := _rom_length s |}.
Proof.
  unfold rom_offset_script, fw_rom_length_stmt, rom_offset_stmt, fits_in_rom.
  simpl. rewrite Hfw. simpl. by rewrite Z.leb_refl.
Qed.

(** X13.  With an offset inside the ROM, the script links exactly when the
    firmware fits behind the offset, and then keeps the symbols given; the
    offset defaults to 0 and the length to the rest of the ROM.  Otherwise it
    stops with its message. *)
Theorem rom_offset_script_checks_fit (s : ld_symbols)
    (Hwords : ld_words bits s)
    (Hoff : default 0 (_rom_offset s) <= _rom_length s) :
  let off := default 0 (_rom_offset s) in
  let fw := default (_rom_length s - off) (_fw_rom_length s) in
  rom_offset_script bits s
  = if off + fw <=? _rom_length s
    then Linked {| _rom_offset := Some off;
                   _fw_rom_length := Some fw;
                   _rom_length := _rom_length s |}
    else LdError "Specified firmware size does not fit in ROM".
Proof.
  intros off fw. destruct Hwords as (Hwo & Hwf & Hwl).
  assert (Hoff0 : 0 <= off).
  { unfold off. destruct (_rom_offset s) as [o|] eqn:Ho; simpl; [|lia].
    by destruct (Hwo o). }
  assert (Hrest : ld_word bits (_rom_length s - off) = _rom_length s - off).
  { unfold ld_word. apply Z.mod_small. fold off in Hoff. lia. }
  unfold rom_offset_script, fw_rom_length_stmt, rom_offset_stmt, fits_in_rom.
  simpl. fold off. rewrite Hrest. fold fw.
  destruct (Z.leb_spec fw (_rom_length s - off));
    destruct (Z.leb_spec (off + fw) (_rom_length s)); try done; lia.
Qed.

End RomOffsetProperties.

(** Extends a reachability proof by a call, or by a statement, of
    thread [t]. *)
Ltac then_call H t r k :=
  lazymatch type of H with
  | reachable _ _ _ (?pcs, ?w) =>
      let H' := fresh "Hreach" in
      pose proof (reach_step _ _ _ _ _ H
                    (step_call t r k pcs w eq_refl)) as H';
      cbn in H'; clear H; rename H' into H
  end.

Ltac then_stmt H t p :=
  lazymatch type of H with
  | reachable _ _ _ (?pcs, ?w) =>
      let o := eval cbv in (thread_step p w) in
      lazymatch o with
      | Ret ?p' ?w' =>
          let H' := fresh "Hreach" in
          pose proof (reach_step _ _ _ _ _ H
                        (step_stmt t p p' pcs w w' eq_refl eq_refl eq_refl))
            as H';
          cbn in H'; clear H; rename H' into H
      end
  end.

Lemma get_meets_put_reachable :
  reachable (drv := pipe_uart) 2 (pipe []) ∅ get_meets_put.
Proof.
  pose proof (reach_init (drv := pipe_uart) 2 (pipe []) ∅) as H.
  cbn in H.
  then_call H 0%nat (@None Z) CallGet.
  then_stmt H 0%nat (FlushLock true).
  then_stmt H 0%nat (FlushBody true).
  then_stmt H 0%nat (FlushUnlock true).
  then_call H 1%nat (@None Z) (CallPut 65).
  then_stmt H 1%nat (PutLock 65).
  exact H.
Qed.

Lemma startup_quiescent (bs : list Z) : quiescent (startup bs).
Proof. repeat split; simpl; lia. Defined.

(** ** The stream on small inputs *)

(** "Hi" and a line feed: the line goes out whole. *)
Example puts_line :
  observe (puts [72; 105; 10] NULL (startup [])) = Some (tt, [72; 105; 10], 0).
Proof. reflexivity. Qed.

(** 63 bytes stay queued, the 64th sends all 64, the 65th is queued. *)
Example puts_63 :
  observe (puts (replicate 63 65) NULL (startup []))
  = Some (tt, [], 63).
Proof. vm_compute. reflexivity. Qed.

Example puts_64 :
  observe (puts (replicate 64 65) NULL (startup []))
  = Some (tt, replicate 64 65, 0).
Proof. vm_compute. reflexivity. Qed.

Example puts_65 :
  observe (puts (replicate 65 65) NULL (startup []))
  = Some (tt, replicate 64 65, 1).
Proof. vm_compute. reflexivity. Qed.

(** A get with "Hi" queued and "ok" pending: "Hi" goes out, 'o' comes in. *)
Example get_after_puts :
  observe ((puts [72; 105] NULL ;; picolibc_get NULL)%shim
             (startup [111; 107]))
  = Some (111, [72; 105], 0).
Proof. reflexivity. Qed.

(** A put on a held mutex waits; a store at a count of 64 is a fault. *)
Example put_waits :
  picolibc_put 65 NULL (set_mutex true (startup []))
  = Wait (set_mutex true (startup [])).
Proof. reflexivity. Qed.

Example put_past_the_end :
  picolibc_put 65 NULL (set_queued 64 (startup [])) = Fault.
Proof. reflexivity. Qed.

(** The failing entry points with newlib's numbers. *)
Example close_newlib :
  close (err := newlib_errno) 1 (startup [])
  = Ret (-1) (set_errno 19 (startup [])).
Proof. reflexivity. Qed.

Example exit_spins :
  _exit 1000 3 (startup [])
  = Spin (emit EvPmOff (emit (EvLogInfo 3) (startup []))).
Proof. vm_compute. reflexivity. Qed.

(** * The claims at concrete inputs *)

(** C1 at startup with the puts of "Hi", and at [get_meets_put]. *)
Lemma put_keeps_count_bounded_witness :
  quiescent (startup []) /\
  reachable 2 (pipe []) ∅ get_meets_put /\
  (exists w', puts [72; 105] NULL (startup []) = Ret tt w' /\
              stream_of w' = [72; 105]) /\
  0 <= picolibc_stdout_queued get_meets_put.2 <= PICOLIBC_STDOUT_BUFSIZE.
Proof.
  split; [apply startup_quiescent|].
  split; [apply get_meets_put_reachable|].
  destruct (put_keeps_count_bounded [72; 105] NULL (startup [])
              (startup_quiescent []) 2 (pipe []) ∅ get_meets_put
              get_meets_put_reachable)
    as [(w' & Hputs & _ & _ & Hs & _) (Hq & _)].
  split; [by exists w'|exact Hq].
Defined.

(** C2 at startup with the puts of "Hi". *)
Lemma short_puts_reach_channel_on_flush_witness :
  quiescent (startup []) /\
  picolibc_stdout_queued (startup []) + Z.of_nat (length [72; 105])
    < PICOLIBC_STDOUT_BUFSIZE /\
  (10 ∉ [72; 105]) /\
  exists w' wf,
    puts [72; 105] NULL (startup []) = Ret tt w' /\
    channel_out (trace w') = [] /\
    picolibc_flush NULL w' = Ret 0 wf /\
    channel_out (trace wf) = [72; 105].
Proof.
  assert (Hlen : picolibc_stdout_queued (startup [])
                 + Z.of_nat (length [72; 105]) < PICOLIBC_STDOUT_BUFSIZE)
    by (vm_compute; reflexivity).
  assert (Hnl : 10 ∉ [72; 105]).
  { intros Hin.
    repeat (apply elem_of_cons in Hin as [Hin|Hin]; [discriminate Hin|]).
    by apply elem_of_nil in Hin. }
  split; [apply startup_quiescent|]. split; [exact Hlen|].
  split; [exact Hnl|].
  destruct (short_puts_reach_channel_on_flush [72; 105] NULL NULL (startup [])
              (startup_quiescent []) Hlen Hnl)
    as (w' & Hputs & _ & Hout & _ & (wf & Hfl & Hof & _) & _).
  exists w', wf. rewrite Hof, Hout. done.
Defined.

(** C3 at startup. *)
Lemma put_line_feed_flushes_witness :
  quiescent (startup []) /\
  exists w',
    picolibc_put 10 NULL (startup []) = Ret 1 w' /\
    channel_out (trace w') = [10].
Proof.
  split; [apply startup_quiescent|].
  destruct (put_line_feed_flushes NULL (startup []) (startup_quiescent []))
    as [(w' & Hput & Htr & Hsent & _) _].
  exists w'. split; [exact Hput|]. rewrite Htr. reflexivity.
Defined.

(** C4 at startup with "ok" pending on the pipe. *)
Lemma get_flushes_then_reads_witness :
  picolibc_put_mutex (startup [111; 107]) = false /\
  exists wg, picolibc_get NULL (startup [111; 107]) = Ret 111 wg.
Proof.
  split; [reflexivity|].
  destruct (get_flushes_then_reads NULL (startup [111; 107]) eq_refl)
    as (b & wf & wg & Hfl & Hget & _ & _ & _ & _ & _ & Hb).
  exists wg. rewrite Hget. f_equal.
  injection Hfl as <-. exact (Hb 1 111 [] (pipe [107]) eq_refl).
Defined.

(** C9, as stated, fails at [get_meets_put]: thread 0 is inside
    [picolibc_get] and thread 1 inside [picolibc_put], and thread 0 is about
    to call [stdio_read] while thread 1, not thread 0, holds the mutex. *)
Lemma get_reads_outside_the_guard :
  reachable 2 (pipe []) ∅ get_meets_put /\
  ~ one_caller_inside get_meets_put /\
  ~ channel_calls_guarded get_meets_put.
Proof.
  split; [apply get_meets_put_reachable|]. split.
  - intros Hone.
    specialize (Hone 0%nat 1%nat GetRead (PutStore 65)
                  eq_refl eq_refl eq_refl eq_refl).
    discriminate Hone.
  - intros Hguard.
    specialize (Hguard 0%nat GetRead eq_refl eq_refl).
    discriminate Hguard.
Qed.

(** C9, amended, at [get_meets_put]. *)
Lemma guard_excludes_writers_witness :
  reachable 2 (pipe []) ∅ get_meets_put /\
  picolibc_put_mutex get_meets_put.2 = true /\
  forall (t : nat) p,
    get_meets_put.1 !! t = Some p -> holds p = true -> t = 1%nat.
Proof.
  split; [apply get_meets_put_reachable|].
  destruct (guard_excludes_writers 2 (pipe []) ∅ get_meets_put
              get_meets_put_reachable) as (Hone & Hm & _).
  split; [reflexivity|].
  intros t p Ht Hh. exact (Hone t 1%nat p (PutStore 65) Ht eq_refl Hh eq_refl).
Defined.

(** * More of the code at concrete inputs *)

Lemma line_ready_reachable :
  reachable (drv := pipe_uart) 1 (pipe []) ∅ line_ready.
Proof.
  pose proof (reach_init (drv := pipe_uart) 1 (pipe []) ∅) as H.
  cbn in H.
  then_call H 0%nat (@None Z) (CallPut 10).
  then_stmt H 0%nat (PutLock 10).
  then_stmt H 0%nat (PutStore 10).
  exact H.
Qed.

(** X1 at startup with 'o' pending: put 'H', get, put a line feed, flush. *)
Lemma calls_keep_the_stream_witness :
  quiescent (startup [111]) /\
  exists rs w',
    run_ops [OpPut 72 NULL; OpGet 1; OpPut 10 2; OpFlush NULL] (startup [111])
    = Ret rs w' /\
    stream_of w' = [72; 10].
Proof.
  split; [apply startup_quiescent|].
  destruct (calls_keep_the_stream
              [OpPut 72 NULL; OpGet 1; OpPut 10 2; OpFlush NULL]
              (startup [111]) (startup_quiescent [111]))
    as (rs & w' & Hrun & _ & _ & Hs).
  by exists rs, w'.
Defined.

(** X2 at startup with the puts of "Hi" and a line feed. *)
Lemma puts_write_lines_or_buffers_witness :
  quiescent (startup []) /\
  exists w' new,
    puts [72; 105; 10] NULL (startup []) = Ret tt w' /\
    stdio_writes (trace w') = new /\
    Forall line_or_full new.
Proof.
  split; [apply startup_quiescent|].
  destruct (puts_write_lines_or_buffers [72; 105; 10] NULL (startup [])
              (startup_quiescent []))
    as (w' & new & Hputs & Htr & Hnew).
  by exists w', new.
Defined.

(** X3 at startup with the puts of "Hi". *)
Lemma line_feed_empties_buffer_witness :
  quiescent (startup []) /\
  exists w',
    puts ([72; 105] ++ [10]) NULL (startup []) = Ret tt w' /\
    picolibc_stdout_queued w' = 0 /\
    channel_out (trace w') = [72; 105; 10].
Proof.
  split; [apply startup_quiescent|].
  destruct (line_feed_empties_buffer [72; 105] NULL (startup [])
              (startup_quiescent []))
    as (w' & Hputs & Hq & _ & Hout).
  by exists w'.
Defined.

(** X4 at startup. *)
Lemma flush_twice_writes_once_witness :
  picolibc_put_mutex (startup []) = false /\
  exists w1 w2,
    picolibc_flush NULL (startup []) = Ret 0 w1 /\
    picolibc_flush NULL w1 = Ret 0 w2 /\
    stdio_writes (trace w2) = stdio_writes (trace w1).
Proof.
  split; [reflexivity|].
  destruct (flush_twice_writes_once NULL NULL (startup []) eq_refl)
    as (w1 & w2 & Hfl1 & Hfl2 & _ & Hwr & _).
  by exists w1, w2.
Defined.

(** X5 at startup: "Hi" is put, then '!' is written. *)
Lemma bulk_write_overtakes_queued_witness :
  quiescent (startup []) /\
  picolibc_stdout_queued (startup []) + Z.of_nat (length [72; 105])
    < PICOLIBC_STDOUT_BUFSIZE /\
  (10 ∉ [72; 105]) /\
  exists w',
    (puts [72; 105] NULL ;; write 1 [33] 1 ;; picolibc_flush NULL)%shim
      (startup [])
    = Ret 0 w' /\
    channel_out (trace w') = [33; 72; 105].
Proof.
  assert (Hlen : picolibc_stdout_queued (startup [])
                 + Z.of_nat (length [72; 105]) < PICOLIBC_STDOUT_BUFSIZE)
    by (vm_compute; reflexivity).
  assert (Hnl : 10 ∉ [72; 105]).
  { intros Hin.
    repeat (apply elem_of_cons in Hin as [Hin|Hin]; [discriminate Hin|]).
    by apply elem_of_nil in Hin. }
  split; [apply startup_quiescent|]. split; [exact Hlen|].
  split; [exact Hnl|].
  destruct (bulk_write_overtakes_queued [72; 105] NULL NULL 1 [33] 1
              (startup []) (startup_quiescent []) Hlen Hnl)
    as (w' & Hrun & Hout).
  by exists w'.
Defined.

(** X6 at startup with nothing pending on the pipe. *)
Lemma get_returns_zero_without_byte_witness :
  picolibc_flush NULL (startup [])
    = Ret 0 (unlocked (flushed (locked (startup [])))) /\
  stdio_read (uart (unlocked (flushed (locked (startup []))))) 1
    = (0, [], pipe []) /\
  exists wg, picolibc_get NULL (startup []) = Ret 0 wg.
Proof.
  split; [reflexivity|]. split; [reflexivity|].
  destruct (get_returns_zero_without_byte NULL (startup [])
              (unlocked (flushed (locked (startup [])))) 0 (pipe [])
              eq_refl eq_refl) as (wg & Hget & _).
  by exists wg.
Defined.

(** X7 at [get_meets_put]: thread 1 stores its byte. *)
Lemma step_extends_stream_witness :
  sys_step get_meets_put
    ([GetRead; PutCheck 65], stored 65 get_meets_put.2) /\
  (stream_of (stored 65 get_meets_put.2) = stream_of get_meets_put.2 \/
   exists (t : nat) c,
     get_meets_put.1 !! t = Some (PutStore c) /\
     [GetRead; PutCheck 65] !! t = Some (PutCheck c) /\
     stream_of (stored 65 get_meets_put.2)
     = stream_of get_meets_put.2 ++ [c]).
Proof.
  assert (Hstep : sys_step get_meets_put
                    ([GetRead; PutCheck 65], stored 65 get_meets_put.2))
    by exact (step_stmt 1 (PutStore 65) (PutCheck 65) get_meets_put.1
                get_meets_put.2 (stored 65 get_meets_put.2)
                eq_refl eq_refl eq_refl).
  split; [exact Hstep|]. exact (step_extends_stream _ _ Hstep).
Defined.

(** X8 at [get_meets_put], for thread 1. *)
Lemma holder_runs_to_unlock_witness :
  reachable 2 (pipe []) ∅ get_meets_put /\
  get_meets_put.1 !! 1%nat = Some (PutStore 65) /\
  holds (PutStore 65) = true /\
  exists (k : nat) p' w',
    (k <= 3)%nat /\
    thread_run k (PutStore 65) get_meets_put.2 = Ret p' w' /\
    picolibc_put_mutex w' = false.
Proof.
  split; [apply get_meets_put_reachable|]. split; [reflexivity|].
  split; [reflexivity|].
  destruct (holder_runs_to_unlock 2 (pipe []) ∅ get_meets_put.1
              get_meets_put.2 1 (PutStore 65) get_meets_put_reachable
              eq_refl eq_refl)
    as (k & p' & w' & Hk & Hrun & _ & Hm & _).
  by exists k, p', w'.
Defined.

(** X9 at [line_ready]: the [if] of the put flushes the line feed. *)
Lemma stream_writes_within_buffer_witness :
  reachable 1 (pipe []) ∅ line_ready /\
  thread_step (PutCheck 10) line_ready.2
    = Ret PutUnlock (checked 10 line_ready.2) /\
  exists new,
    stdio_writes (trace (checked 10 line_ready.2))
    = stdio_writes (trace line_ready.2) ++ new /\
    Forall (fun dl : list Z * Z => 1 <= dl.2 <= PICOLIBC_STDOUT_BUFSIZE) new.
Proof.
  split; [apply line_ready_reachable|]. split; [reflexivity|].
  destruct (stream_writes_within_buffer 1 (pipe []) ∅ line_ready.1
              line_ready.2 (checked 10 line_ready.2) (PutCheck 10) PutUnlock
              line_ready_reachable eq_refl)
    as (new & Htr & Hnew).
  exists new. split; [exact Htr|].
  eapply Forall_impl; [exact Hnew|]. intros dl (_ & _ & Hl). exact Hl.
Defined.

(** X10 at [get_meets_put]. *)
Lemma reachable_trace_guarded_witness :
  reachable 2 (pipe []) ∅ get_meets_put /\
  guard_walk false (trace get_meets_put.2) = Some true.
Proof.
  split; [apply get_meets_put_reachable|].
  exact (reachable_trace_guarded 2 (pipe []) ∅ get_meets_put
           get_meets_put_reachable).
Defined.

(** X12 with 64-bit words and a 512 KiB ROM. *)
Lemma default_length_always_links_witness :
  _fw_rom_length rom_512k = None /\
  rom_offset_script 64 rom_512k
  = Linked {| _rom_offset := Some 0; _fw_rom_length := Some 0x80000;
              _rom_length := 0x80000 |}.
Proof.
  split; [reflexivity|].
  exact (default_length_always_links 64 rom_512k eq_refl).
Defined.

(** X13 with 64-bit words: a 28 KiB firmware behind a 4 KiB offset fills a
    32 KiB ROM. *)
Lemma rom_offset_script_checks_fit_witness :
  ld_words 64 slot_28k /\
  default 0 (_rom_offset slot_28k) <= _rom_length slot_28k /\
  rom_offset_script 64 slot_28k = Linked slot_28k.
Proof.
  assert (Hwords : ld_words 64 slot_28k).
  { unfold ld_words. change (2 ^ Z.of_N 64) with 18446744073709551616.
    repeat split; simplify_eq/=; lia. }
  assert (Hoff : default 0 (_rom_offset slot_28k) <= _rom_length slot_28k)
    by (simpl; lia).
  split; [exact Hwords|]. split; [exact Hoff|].
  exact (rom_offset_script_checks_fit 64 slot_28k Hwords Hoff).
Defined.

(** X11 at startup with two threads: thread 0 puts 'A'. *)
Lemma free_mutex_lets_a_call_run_witness :
  reachable 2 (pipe []) ∅ (replicate 2 (Outside None), startup []) /\
  replicate 2 (Outside None) !! 0%nat = Some (Outside None) /\
  picolibc_put_mutex (startup []) = false /\
  exists w',
    picolibc_put 65 NULL (startup []) = Ret 1 w' /\
    reachable 2 (pipe []) ∅ ([Outside (Some 1); Outside None], w').
Proof.
  split; [apply reach_init|]. split; [reflexivity|]. split; [reflexivity|].
  destruct (free_mutex_lets_a_call_run 2 (pipe []) ∅
              (replicate 2 (Outside None)) (startup []) 0 None
              (OpPut 65 NULL) (reach_init 2 (pipe []) ∅) eq_refl eq_refl)
    as (v & w' & Hop & _ & Hr).
  simpl in Hop. injection Hop as <- <-.
  eexists. split; [reflexivity|]. exact Hr.
Defined.
